(** * Callibella: the interactive document model and its derived views

    A shallow embedding of the document/span model of the Callibella client
    (bokaTypes.ts, registers.ts), of the algorithms that views and the
    application shell run over it (CompilerView.tsx, PracticeView,
    ReviewView.tsx, App) and of the mock translation driver
    (mockTranslation.ts).

    Conventions of the embedding.
    - JavaScript strings are byte strings ([string]); a literal such as the
      ellipsis is its UTF-8 encoding.  Concatenation and equality on strings
      are insensitive to the encoding.
    - A [Record<string, T>] used as a dictionary is a [gmap string T]; own
      enumerable keys only (the documents come from JSON or from object
      literals, span identities are generated identifiers).
    - A [number] used as an array index is a [Z]; indexing an array outside
      [0 .. length-1] gives [undefined], here [None].
    - [T | null], [T | undefined] and optional fields are [option T].
    - White space is the ASCII part of what [trim] and [\s] accept.
    - [String.prototype.localeCompare] is a parameter of the card order, and
      [Array.prototype.sort] is the stable sort.
    - Timers expire in the order of their delays, the earlier registered one
      first among equal delays; a callback runs to completion. *)

From Stdlib Require Import ZArith Lia.
From stdpp Require Import gmap strings pretty list fin_maps sorting.

Local Open Scope string_scope.
Local Open Scope list_scope.

(** ** Registers (registers.ts) *)

Inductive RegisterId : Type :=
  | formal | literary | neutral | casual | colloquial | vulgar.

#[global] Instance RegisterId_eq_dec : EqDecision RegisterId.
Proof. solve_decision. Defined.

(** ** Documents (bokaTypes.ts) *)

Record Variant : Type := mkVariant {
  v_id : string;
  v_register : RegisterId;
  v_text : string;
  v_note : option string;
  v_difficulty : option Z
}.

Record Span : Type := mkSpan {
  span_id : string;
  sourceText : string;
  variants : list Variant;
  activeVariantIndex : Z
}.

Inductive DocToken : Type :=
  | TokText (value : string)
  | TokSpan (spanId : string).

Record InteractiveDoc : Type := mkDoc {
  tokens : list DocToken;
  spans : gmap string Span
}.

#[global] Instance Variant_eq_dec : EqDecision Variant.
Proof. solve_decision. Defined.
#[global] Instance Span_eq_dec : EqDecision Span.
Proof. solve_decision. Defined.
#[global] Instance DocToken_eq_dec : EqDecision DocToken.
Proof. solve_decision. Defined.

(** [arr[i]] for a JavaScript number [i] holding an integer. *)
Definition js_index {A : Type} (arr : list A) (i : Z) : option A :=
  if (i <? 0)%Z then None else arr !! Z.to_nat i.

(** The two-character string of two line feeds, the block separator. *)
Definition LF : Ascii.ascii := Ascii.ascii_of_nat 10.
Definition block_separator : string := String LF (String LF EmptyString).

(** The placeholders: U+2026 in the compiler and review views, three full
    stops in the practice view, four underscores for a masked span. *)
Definition ellipsis : string := "…".
Definition three_dots : string := "...".
Definition blank_marker : string := "____".

(** ** Block segmentation

    The loop of [docBlocks] in CompilerView.tsx; the same loop is written out
    again in [PracticeView.phrases] and in [ReviewView.buildMaskedContext]. *)

(** [tok.type === 'text' && tok.value === '\n\n'] *)
Definition is_separator (tok : DocToken) : bool :=
  match tok with
  | TokText value => bool_decide (value = block_separator)
  | TokSpan _ => false
  end.

(** One iteration of [for (const tok of doc.tokens)], on the loop state
    [(blocks, cur)]. *)
Definition block_step (st : list (list DocToken) * list DocToken) (tok : DocToken)
  : list (list DocToken) * list DocToken :=
  if is_separator tok then (st.1 ++ [st.2], []) else (st.1, st.2 ++ [tok]).

(** The loop followed by the final [blocks.push(cur)]. *)
Definition split_blocks (toks : list DocToken) : list (list DocToken) :=
  let st := fold_left block_step toks ([], []) in st.1 ++ [st.2].

(** [docBlocks]: no block at all while there is no document. *)
Definition docBlocks (doc : option InteractiveDoc) : list (list DocToken) :=
  match doc with
  | None => []
  | Some d => split_blocks (tokens d)
  end.

(** Number of separator tokens of a sequence. *)
Definition separator_count (toks : list DocToken) : nat :=
  length (filter (λ tok, is_separator tok = true) toks).

(** Blocks glued back together with one separator token between neighbours. *)
Fixpoint rejoin (blocks : list (list DocToken)) : list DocToken :=
  match blocks with
  | [] => []
  | [b] => b
  | b :: rest => b ++ TokText block_separator :: rejoin rest
  end.

(** The loop read from the front: what remains to be produced when [cur] is
    the block under construction. *)
Fixpoint blocks_from (cur : list DocToken) (toks : list DocToken)
  : list (list DocToken) :=
  match toks with
  | [] => [cur]
  | tok :: rest =>
      if is_separator tok then cur :: blocks_from [] rest
      else blocks_from (cur ++ [tok]) rest
  end.

(** ** Rendering a block under a register (CompilerView.tsx) *)

(** [arr.find(p)] and [arr.findIndex(p)]. *)
Definition array_find {A : Type} (p : A → bool) (arr : list A) : option A :=
  snd <$> list_find (λ x, p x = true) arr.

Definition array_findIndex {A : Type} (p : A → bool) (arr : list A) : Z :=
  match list_find (λ x, p x = true) arr with
  | Some (i, _) => Z.of_nat i
  | None => (-1)%Z
  end.

(** [a ?? b] on possibly undefined values. *)
Definition nullish {A : Type} (a b : option A) : option A :=
  match a with
  | Some x => Some x
  | None => b
  end.

Infix "??" := nullish (at level 61, left associativity).

Definition has_register (r : RegisterId) (v : Variant) : bool :=
  bool_decide (v_register v = r).

(** The body of the token loop of [renderBlockForRegister]: what one token
    adds to [out]. *)
Definition register_token_text (d : InteractiveDoc) (register : RegisterId)
    (tok : DocToken) : string :=
  match tok with
  | TokText value => value
  | TokSpan spanId =>
      match spans d !! spanId with
      | None => ellipsis
      | Some span =>
          if bool_decide (length (variants span) = 0) then ellipsis
          else
            let direct := array_find (has_register register) (variants span) in
            let neutral_ := array_find (has_register neutral) (variants span) in
            default ellipsis
              (v_text <$> (direct ?? neutral_ ?? js_index (variants span) 0))
      end
  end.

Definition renderBlockForRegister (doc : option InteractiveDoc)
    (blockIndex : Z) (register : RegisterId) : string :=
  match doc, js_index (docBlocks doc) blockIndex with
  | Some d, Some block =>
      fold_left (λ out tok, out +:+ register_token_text d register tok) block ""
  | _, _ => ""
  end.

(** The precedence of the specification, as a relation between the variant
    list of a span and the text shown for a requested register. *)
Inductive register_choice (r : RegisterId) (vs : list Variant) : string → Prop :=
  | choice_direct pre v post :
      vs = pre ++ v :: post →
      v_register v = r →
      Forall (λ w, v_register w ≠ r) pre →
      register_choice r vs (v_text v)
  | choice_neutral pre v post :
      Forall (λ w, v_register w ≠ r) vs →
      vs = pre ++ v :: post →
      v_register v = neutral →
      Forall (λ w, v_register w ≠ neutral) pre →
      register_choice r vs (v_text v)
  | choice_first v rest :
      Forall (λ w, v_register w ≠ r ∧ v_register w ≠ neutral) vs →
      vs = v :: rest →
      register_choice r vs (v_text v)
  | choice_placeholder :
      vs = [] →
      register_choice r vs ellipsis.

(** Texts of the tokens of a block, in order, glued together. *)
Definition concat_texts (texts : list string) : string :=
  foldr String.append "" texts.

(** The example span of the specification and a one-token document on it. *)
Definition example_variants : list Variant :=
  [ mkVariant "v1" neutral "a" None None; mkVariant "v2" formal "B" None None ].

Definition example_doc (vs : list Variant) : InteractiveDoc :=
  mkDoc [TokSpan "s"] {[ "s" := mkSpan "s" "src" vs 0%Z ]}.

(** What the code shows for a span, as a function of its variant list. *)
Definition span_register_text (register : RegisterId) (vs : list Variant) : string :=
  if bool_decide (length vs = 0) then ellipsis
  else default ellipsis
         (v_text <$> (array_find (has_register register) vs
                        ?? array_find (has_register neutral) vs
                        ?? js_index vs 0)).

(** ** Document state of the application shell (App)

    [doc] is a piece of React state holding [InteractiveDoc | null].  A state
    updater either hands back the very object it was given, or a new one. *)

Inductive StateUpdate : Type :=
  | Keep
  | Replace (next : option InteractiveDoc).

Definition apply_update (prev : option InteractiveDoc) (u : StateUpdate)
  : option InteractiveDoc :=
  match u with
  | Keep => prev
  | Replace next => next
  end.

(** [{ ...span, activeVariantIndex: i }] *)
Definition with_activeVariantIndex (span : Span) (i : Z) : Span :=
  mkSpan (span_id span) (sourceText span) (variants span) i.

(** *** Selection-preserving merge: [makeTranslationCallbacks(..).onDoc] *)

(** One iteration of [for (const [spanId, nextSpan] of
    Object.entries(incoming.spans))], on [nextSpans]. *)
Definition merge_step (prev : InteractiveDoc) (spanId : string) (nextSpan : Span)
    (nextSpans : gmap string Span) : gmap string Span :=
  match spans prev !! spanId with
  | None => nextSpans
  | Some prevSpan =>
      <[spanId := with_activeVariantIndex nextSpan (activeVariantIndex prevSpan)]>
        nextSpans
  end.

(** [nextDoc]: the loop starts from the copy [{ ...incoming.spans }]. *)
Definition merge_doc (prev incoming : InteractiveDoc) : InteractiveDoc :=
  mkDoc (tokens incoming)
        (map_fold (merge_step prev) (spans incoming) (spans incoming)).

(** The updater passed to [setDoc] by [onDoc]. *)
Definition onDoc_update (incoming : InteractiveDoc)
    (prev : option InteractiveDoc) : StateUpdate :=
  match prev with
  | None => Replace (Some incoming)
  | Some p => Replace (Some (merge_doc p incoming))
  end.

Definition onDoc (prev : option InteractiveDoc) (incoming : InteractiveDoc)
  : option InteractiveDoc :=
  apply_update prev (onDoc_update incoming prev).

(** *** The handler of the mock fallback in [startTranslation]:
    [setDoc(incoming)], whatever the state was. *)
Definition mock_onDoc (prev : option InteractiveDoc)
    (incoming : option InteractiveDoc) : option InteractiveDoc :=
  apply_update prev (Replace incoming).

(** The two places where a document produced by a translation reaches the
    displayed state. *)
Inductive DocPath : Type :=
  | backend_callbacks
  | mock_fallback.

Definition deliver (path : DocPath) (prev : option InteractiveDoc)
    (incoming : InteractiveDoc) : option InteractiveDoc :=
  match path with
  | backend_callbacks => onDoc prev incoming
  | mock_fallback => mock_onDoc prev (Some incoming)
  end.

(** The active index of span [spanId] in a state. *)
Definition active_index_of (st : option InteractiveDoc) (spanId : string)
  : option Z :=
  d ← st; span ← spans d !! spanId; Some (activeVariantIndex span).

(** The Span invariant of the data model. *)
Definition index_in_range (span : Span) : Prop :=
  (0 ≤ activeVariantIndex span < Z.of_nat (length (variants span)))%Z.

(** Three variants of a span. *)
Definition sample_variants (spanId base : string) : list Variant :=
  [ mkVariant (spanId +:+ "-neutral") neutral base None (Some 1%Z);
    mkVariant (spanId +:+ "-formal") formal base (Some "Slightly elevated") (Some 2%Z);
    mkVariant (spanId +:+ "-casual") casual base (Some "Relaxed") (Some 1%Z) ].

(** A document the user has been working on (index 2 chosen for [s1]) and a
    document as a backend sends it (default selections). *)
Definition doc_user : InteractiveDoc :=
  mkDoc [TokText "Hello "; TokSpan "s1"; TokSpan "s0"]
        {[ "s1" := mkSpan "s1" "world" (sample_variants "s1" "monde") 2%Z;
           "s0" := mkSpan "s0" "old" (sample_variants "s0" "vieux") 1%Z ]}.

Definition doc_backend : InteractiveDoc :=
  mkDoc [TokText "Hello "; TokSpan "s1"; TokText "!"; TokSpan "s2"]
        {[ "s1" := mkSpan "s1" "world" (sample_variants "s1" "monde") 0%Z;
           "s2" := mkSpan "s2" "new" (sample_variants "s2" "neuf") 0%Z ]}.

(** A backend document whose copy of [s1] has fewer variants. *)
Definition doc_backend_short : InteractiveDoc :=
  mkDoc [TokText "Hello "; TokSpan "s1"]
        {[ "s1" := mkSpan "s1" "world" (take 2 (sample_variants "s1" "monde")) 0%Z ]}.

(** The statement of C1 for one delivery path: the previous active index is
    found on every span the two documents share. *)
Definition selection_preserved (path : DocPath) : Prop :=
  ∀ prev incoming spanId prevSpan nextSpan,
    spans prev !! spanId = Some prevSpan →
    spans incoming !! spanId = Some nextSpan →
    active_index_of (deliver path (Some prev) incoming) spanId
    = Some (activeVariantIndex prevSpan).

(** *** Content-filter re-selection: the effect on [contentFilterEnabled] *)

Definition not_vulgar (v : Variant) : bool := negb (has_register vulgar v).

(** One iteration of [for (const [spanId, span] of Object.entries(prev.spans))],
    on the loop state [(changed, nextSpans)]. *)
Definition filter_step (spanId : string) (span : Span)
    (st : bool * gmap string Span) : bool * gmap string Span :=
  let active := js_index (variants span) (activeVariantIndex span) in
  if negb (bool_decide (v_register <$> active = Some vulgar)) then st
  else
    let nextIndex := array_findIndex not_vulgar (variants span) in
    if (nextIndex <? 0)%Z then st
    else (true, <[spanId := with_activeVariantIndex span nextIndex]> st.2).

(** The updater passed to [setDoc] by the effect. *)
Definition filter_update (prev : option InteractiveDoc) : StateUpdate :=
  match prev with
  | None => Keep
  | Some p =>
      let st := map_fold filter_step (false, spans p) (spans p) in
      if st.1 then Replace (Some (mkDoc (tokens p) st.2)) else Keep
  end.

(** The effect: nothing happens while the filter is off. *)
Definition content_filter_effect (contentFilterEnabled : bool)
    (prev : option InteractiveDoc) : StateUpdate :=
  if negb contentFilterEnabled then Keep else filter_update prev.

Definition content_filter (prev : option InteractiveDoc) : option InteractiveDoc :=
  apply_update prev (content_filter_effect true prev).

(** What the pass does to one span: [Some] of the re-selected span, or [None]
    when the span is passed over. *)
Definition reselect (span : Span) : option Span :=
  match js_index (variants span) (activeVariantIndex span) with
  | Some active =>
      if bool_decide (v_register active = vulgar) then
        match list_find (λ v, not_vulgar v = true) (variants span) with
        | Some (i, _) => Some (with_activeVariantIndex span (Z.of_nat i))
        | None => None
        end
      else None
  | None => None
  end.

(** The active variant of the span is a vulgar one. *)
Definition active_is_vulgar (span : Span) : Prop :=
  ∃ v, js_index (variants span) (activeVariantIndex span) = Some v
       ∧ v_register v = vulgar.

(** [i] is the position of the first variant that is not vulgar. *)
Definition first_non_vulgar (vs : list Variant) (i : nat) : Prop :=
  ∃ v, vs !! i = Some v ∧ v_register v ≠ vulgar
       ∧ ∀ j w, vs !! j = Some w → (j < i)%nat → v_register w = vulgar.

(** Documents for the filter: [sx] has a vulgar selection and a way out,
    [sv] has only vulgar variants. *)
Definition doc_vulgar : InteractiveDoc :=
  mkDoc [TokSpan "sx"; TokText " "; TokSpan "sv"]
        {[ "sx" := mkSpan "sx" "x"
                     [ mkVariant "sx-vulgar" vulgar "x!" None None;
                       mkVariant "sx-neutral" neutral "ok" None None ] 0%Z;
           "sv" := mkSpan "sv" "v"
                     [ mkVariant "sv-vulgar" vulgar "v!" None None ] 0%Z ]}.

(** ** Reading through possibly undefined values

    Evaluating [o.f] throws a TypeError when [o] is undefined, [o?.f] does
    not.  A computation either returns a value or throws. *)

Inductive Completion (A : Type) : Type :=
  | Returns (a : A)
  | Throws.

Arguments Returns {A} a.
Arguments Throws {A}.

#[global] Instance Completion_ret : MRet Completion := λ A a, Returns a.
#[global] Instance Completion_bind : MBind Completion := λ A B k c,
  match c with
  | Returns a => k a
  | Throws => Throws
  end.

(** [o.f] *)
Definition member {A B : Type} (o : option A) (f : A → B) : Completion B :=
  match o with
  | Some a => Returns (f a)
  | None => Throws
  end.

(** [o?.f] *)
Definition opt_member {A B : Type} (o : option A) (f : A → B) : option B :=
  f <$> o.

(** [o?.arr[i]]: the chain stops at an undefined [o]. *)
Definition opt_member_at {A B : Type} (o : option A) (f : A → list B) (i : Z)
  : option B :=
  a ← o; js_index (f a) i.

(** ** Resolving a span by its active index *)

(** CompilerView.tsx, interactive mode: the label of a span button. *)
Definition interactive_label (d : InteractiveDoc) (spanId : string)
  : Completion string :=
  let span := spans d !! spanId in
  let active := default 0%Z (opt_member span activeVariantIndex) in
  mret (default ellipsis
          (opt_member (opt_member_at span variants active) v_text
             ?? opt_member span sourceText)).

(** PracticeView, [phrases]: what a span token adds to [text] and to
    [sourceText]. *)
Definition practice_span (d : InteractiveDoc) (spanId : string)
  : Completion (string * string) :=
  let span := spans d !! spanId in
  unresolved ←
    (if bool_decide (span = None) then mret true
     else vs ← member span variants; mret (bool_decide (length vs = 0)));
  if (unresolved : bool)
  then mret (three_dots, default three_dots (opt_member span sourceText))
  else
    vs ← member span variants;
    idx ← member span activeVariantIndex;
    vs0 ← member span variants;
    let active := js_index vs idx ?? js_index vs0 0 in
    src ← member span sourceText;
    mret (default three_dots (opt_member active v_text), src).

Definition practice_span_text (d : InteractiveDoc) (spanId : string)
  : Completion string :=
  p ← practice_span d spanId; mret p.1.

(** ReviewView.tsx, [buildMaskedContext]: what a span token other than the
    target adds to [out]. *)
Definition context_span_text (contentFilterEnabled : bool) (d : InteractiveDoc)
    (spanId : string) : Completion string :=
  let span := spans d !! spanId in
  unresolved ←
    (if bool_decide (span = None) then mret true
     else vs ← member span variants; mret (bool_decide (length vs = 0)));
  if (unresolved : bool) then mret ellipsis
  else
    idx0 ← member span activeVariantIndex;
    vs ← member span variants;
    let idx :=
      if contentFilterEnabled
         && bool_decide (opt_member (js_index vs idx0) v_register = Some vulgar)
      then
        let next := array_findIndex not_vulgar vs in
        if (0 <=? next)%Z then next else idx0
      else idx0 in
    src ← member span sourceText;
    mret (default ellipsis (opt_member (js_index vs idx) v_text ?? Some src)).

(** The places where a span is resolved by its active index. *)
Inductive ResolutionSite : Type :=
  | interactive_view
  | practice_view
  | review_context (contentFilterEnabled : bool).

Definition resolve_active (site : ResolutionSite) (d : InteractiveDoc)
    (spanId : string) : Completion string :=
  match site with
  | interactive_view => interactive_label d spanId
  | practice_view => practice_span_text d spanId
  | review_context cf => context_span_text cf d spanId
  end.

(** The contract of C7 in the words of the specification: the text of the
    variant at the active index, else the source text of the span, else the
    ellipsis. *)
Definition contract_text (d : InteractiveDoc) (spanId : string) : string :=
  match spans d !! spanId with
  | None => ellipsis
  | Some span =>
      match js_index (variants span) (activeVariantIndex span) with
      | Some v => v_text v
      | None => sourceText span
      end
  end.

Definition resolution_contract (site : ResolutionSite) : Prop :=
  ∀ d spanId, resolve_active site d spanId = Returns (contract_text d spanId).

(** What the practice view shows instead: the variant at the active index,
    else the first variant, else three full stops. *)
Definition practice_text (d : InteractiveDoc) (spanId : string) : string :=
  match spans d !! spanId with
  | None => three_dots
  | Some span =>
      match variants span with
      | [] => three_dots
      | first :: _ =>
          match js_index (variants span) (activeVariantIndex span) with
          | Some v => v_text v
          | None => v_text first
          end
      end
  end.

(** And what it adds to the source line of a phrase. *)
Definition practice_source (d : InteractiveDoc) (spanId : string) : string :=
  match spans d !! spanId with
  | None => three_dots
  | Some span => sourceText span
  end.

(** A document with a span whose active index is out of range. *)
Definition doc_stale : InteractiveDoc :=
  mkDoc [TokSpan "s"]
        {[ "s" := mkSpan "s" "src" [ mkVariant "s-neutral" neutral "a" None None ] 5%Z ]}.

(** A document with a span without variants. *)
Definition doc_pending : InteractiveDoc :=
  mkDoc [TokSpan "s"] {[ "s" := mkSpan "s" "src" [] 0%Z ]}.

(** ** Jobs and stories (bokaTypes.ts) *)

Inductive SegmentStage : Type := pending | stage_ready | stage_error.

#[global] Instance SegmentStage_eq_dec : EqDecision SegmentStage.
Proof. solve_decision. Defined.

Record TranslationSegment : Type := mkSegment {
  seg_id : string;
  source : string;
  baseText : option string;
  baseStage : SegmentStage;
  spanStage : SegmentStage;
  variantCount : Z
}.

Record TranslationJob : Type := mkJob {
  job_id : string;
  segments : list TranslationSegment;
  ready : bool
}.

Record StoryTranslation : Type := mkTranslation {
  language : string;
  tr_createdAt : Z;
  job : option TranslationJob;
  doc : option InteractiveDoc;
  errorMessage : option string
}.

Record Story : Type := mkStory {
  story_id : string;
  title : string;
  category : option string;
  createdAt : Z;
  updatedAt : Z;
  story_sourceText : string;
  sourceLanguage : string;
  translations : gmap string StoryTranslation
}.

(** ** White space and [String.prototype.trim]

    White space is the ASCII part of what ECMAScript trims: tab, line feed,
    vertical tab, form feed, carriage return and space. *)

Definition is_white_space (c : Ascii.ascii) : bool :=
  let n := Ascii.nat_of_ascii c in
  ((9 <=? n)%nat && (n <=? 13)%nat) || (n =? 32)%nat.

Fixpoint trim_start (s : string) : string :=
  match s with
  | EmptyString => EmptyString
  | String c rest => if is_white_space c then trim_start rest else s
  end.

Definition js_trim (s : string) : string :=
  String.rev (trim_start (String.rev (trim_start s))).

(** ** Flashcards (ReviewView.tsx) *)

Record Flashcard : Type := mkFlashcard {
  card_id : string;
  storyId : string;
  storyTitle : string;
  card_language : string;
  card_spanId : string;
  card_sourceText : string;
  variantId : string;
  register : RegisterId;
  text : string;
  contextMasked : option string;
  note : option string
}.

(** What [buildMaskedContext] writes for a span other than the target. *)
Definition masked_span_text (contentFilterEnabled : bool) (d : InteractiveDoc)
    (spanId : string) : string :=
  match spans d !! spanId with
  | None => ellipsis
  | Some span =>
      if bool_decide (length (variants span) = 0) then ellipsis
      else
        let idx0 := activeVariantIndex span in
        let idx :=
          if contentFilterEnabled
             && bool_decide (v_register <$> js_index (variants span) idx0
                             = Some vulgar)
          then
            let next := array_findIndex not_vulgar (variants span) in
            if (0 <=? next)%Z then next else idx0
          else idx0 in
        default ellipsis
          (v_text <$> js_index (variants span) idx ?? Some (sourceText span))
  end.

(** [b.some((t) => t.type === 'span' && t.spanId === targetSpanId)] *)
Definition mentions (targetSpanId : string) (block : list DocToken) : bool :=
  bool_decide (Exists (λ t, t = TokSpan targetSpanId) block).

Definition masked_token_text (contentFilterEnabled : bool) (d : InteractiveDoc)
    (targetSpanId : string) (tok : DocToken) : string :=
  match tok with
  | TokText value => value
  | TokSpan spanId =>
      if bool_decide (spanId = targetSpanId) then blank_marker
      else masked_span_text contentFilterEnabled d spanId
  end.

Definition buildMaskedContext (contentFilterEnabled : bool) (d : InteractiveDoc)
    (targetSpanId : string) : option string :=
  match array_find (mentions targetSpanId) (split_blocks (tokens d)) with
  | None => None
  | Some block =>
      Some (fold_left
              (λ out tok,
                 out +:+ masked_token_text contentFilterEnabled d targetSpanId tok)
              block "")
  end.

(** The card pushed for variant [v] of span [spanId] of translation [tr] of
    [story]. *)
Definition card_of (contentFilterEnabled : bool) (story : Story)
    (tr : StoryTranslation) (d : InteractiveDoc) (spanId : string) (span : Span)
    (v : Variant) : Flashcard :=
  mkFlashcard
    (story_id story +:+ ":" +:+ language tr +:+ ":" +:+ spanId +:+ ":" +:+ v_id v)
    (story_id story) (title story) (language tr) spanId (sourceText span)
    (v_id v) (v_register v) (v_text v)
    (buildMaskedContext contentFilterEnabled d spanId) (v_note v).

(** The two [continue] tests of the innermost loop. *)
Definition skipped (contentFilterEnabled : bool) (v : Variant) : bool :=
  (bool_decide (v_text v = "") || bool_decide (js_trim (v_text v) = ""))
  || (contentFilterEnabled && has_register vulgar v).

(** The four nested loops, innermost first, on the array [out]. *)
Definition variant_loop (cf : bool) (story : Story) (tr : StoryTranslation)
    (d : InteractiveDoc) (spanId : string) (span : Span)
    (out : list Flashcard) : list Flashcard :=
  fold_left
    (λ out v, if skipped cf v then out
              else out ++ [card_of cf story tr d spanId span v])
    (variants span) out.

Definition span_loop (cf : bool) (story : Story) (tr : StoryTranslation)
    (d : InteractiveDoc) (out : list Flashcard) : list Flashcard :=
  fold_left (λ out entry, variant_loop cf story tr d entry.1 entry.2 out)
            (map_to_list (spans d)) out.

Definition translation_loop (cf : bool) (story : Story)
    (out : list Flashcard) : list Flashcard :=
  fold_left
    (λ out tr, match doc tr with
               | None => out
               | Some d => span_loop cf story tr d out
               end)
    (map_to_list (translations story)).*2 out.

Definition collect_cards (cf : bool) (stories : list Story) : list Flashcard :=
  fold_left (λ out story, translation_loop cf story out) stories [].

(** The derivation in the words of the specification: for every story, every
    translation with a document, every span and every variant, one card if
    the text is not blank and, under the filter, the register is not
    vulgar. *)
Definition emits_card (cf : bool) (v : Variant) : Prop :=
  js_trim (v_text v) ≠ "" ∧ (cf = true → v_register v ≠ vulgar).

#[global] Instance emits_card_dec cf v : Decision (emits_card cf v).
Proof. unfold emits_card. apply _. Defined.

Definition spec_cards (cf : bool) (stories : list Story) : list Flashcard :=
  story ← stories;
  tr ← (map_to_list (translations story)).*2;
  match doc tr with
  | None => []
  | Some d =>
      entry ← map_to_list (spans d);
      v ← variants entry.2;
      if decide (emits_card cf v) then [card_of cf story tr d entry.1 entry.2 v]
      else []
  end.

(** [Array.prototype.sort] with a comparator.  The language fixes the result
    and not the algorithm: the sort is stable, and for a consistent comparator
    the result is sorted.  There is one such arrangement of an array
    ([array_sort_unique] below), and insertion from the right computes it. *)
Section array_sort.
Context {A : Type} (compareFn : A → A → Z).

(** Two elements that the comparator does not separate. *)
Definition same_rank (x y : A) : Prop :=
  (compareFn x y ≤ 0)%Z ∧ (compareFn y x ≤ 0)%Z.

#[global] Instance same_rank_dec x y : Decision (same_rank x y).
Proof. unfold same_rank. apply _. Defined.

Fixpoint sort_insert (x : A) (sorted : list A) : list A :=
  match sorted with
  | [] => [x]
  | y :: rest =>
      if (compareFn x y <=? 0)%Z then x :: y :: rest
      else y :: sort_insert x rest
  end.

Definition array_sort (arr : list A) : list A := foldr sort_insert [] arr.
End array_sort.

(** The comparator of [allCards], over the collation [localeCompare] of the
    host. *)
Definition compare_cards (localeCompare : string → string → Z)
    (a b : Flashcard) : Z :=
  if negb (bool_decide (storyTitle a = storyTitle b))
  then localeCompare (storyTitle a) (storyTitle b)
  else if negb (bool_decide (card_language a = card_language b))
  then localeCompare (card_language a) (card_language b)
  else localeCompare (card_sourceText a) (card_sourceText b).

Definition allCards (localeCompare : string → string → Z) (cf : bool)
    (stories : list Story) : list Flashcard :=
  array_sort (compare_cards localeCompare) (collect_cards cf stories).

(** The order of the specification: by story title, then by language, then by
    source text, each under the collation. *)
Definition card_le (localeCompare : string → string → Z) (a b : Flashcard) : Prop :=
  (localeCompare (storyTitle a) (storyTitle b) < 0)%Z
  ∨ (storyTitle a = storyTitle b
     ∧ ((localeCompare (card_language a) (card_language b) < 0)%Z
        ∨ (card_language a = card_language b
           ∧ (localeCompare (card_sourceText a) (card_sourceText b) ≤ 0)%Z))).

(** Two cards that no key tells apart. *)
Definition same_keys (a b : Flashcard) : Prop :=
  storyTitle a = storyTitle b ∧ card_language a = card_language b
  ∧ card_sourceText a = card_sourceText b.

#[global] Instance same_keys_dec a b : Decision (same_keys a b).
Proof. unfold same_keys. apply _. Defined.

(** What is asked of the collation: a total order on strings, reported by
    sign. *)
Record Collation (localeCompare : string → string → Z) : Prop := {
  collate_refl : ∀ a, localeCompare a a = 0%Z;
  collate_eq : ∀ a b, localeCompare a b = 0%Z → a = b;
  collate_antisym : ∀ a b, (localeCompare a b < 0 ↔ 0 < localeCompare b a)%Z;
  collate_trans : ∀ a b c,
    (localeCompare a b ≤ 0 → localeCompare b c ≤ 0 → localeCompare a c ≤ 0)%Z
}.

(** Comparison by code units, one collation among others. *)
Definition code_unit_compare (a b : string) : Z :=
  match String.compare a b with
  | Lt => (-1)%Z
  | Eq => 0%Z
  | Gt => 1%Z
  end.

(** The story of the flashcard example and two titled stories. *)
Definition doc_sx : InteractiveDoc :=
  mkDoc [TokText "It is "; TokSpan "sx"; TokText "."]
        {[ "sx" := mkSpan "sx" "fine"
                     [ mkVariant "sx-neutral" neutral "ok" None None;
                       mkVariant "sx-vulgar" vulgar "x" None None ] 0%Z ]}.

Definition story_with (sid ttl : string) (d : InteractiveDoc) : Story :=
  mkStory sid ttl None 0%Z 0%Z "" "en"
          {[ "fr" := mkTranslation "fr" 0%Z None (Some d) None ]}.

Definition story_sx : Story := story_with "st" "Story" doc_sx.
Definition story_bravo : Story := story_with "b" "Bravo" doc_sx.
Definition story_alpha : Story := story_with "a" "Alpha" doc_sx.

(** ** The mock translation driver (mockTranslation.ts) *)

(** [split_into_segments]: the trimmed text is cut at every run of white
    space that follows a full stop, an exclamation mark or a question mark;
    the pieces are trimmed and the empty ones dropped. *)

Definition ends_sentence (c : Ascii.ascii) : bool :=
  let n := Ascii.nat_of_ascii c in
  (n =? 46)%nat || (n =? 33)%nat || (n =? 63)%nat.

(** Where the scan of [split(/(?<=[.!?])\s+/)] stands: inside a separator,
    right after a sentence end, or elsewhere. *)
Inductive ScanMode : Type := InSeparator | AfterSentenceEnd | Elsewhere.

Definition mode_after (c : Ascii.ascii) : ScanMode :=
  if ends_sentence c then AfterSentenceEnd else Elsewhere.

(** [cur] is the piece under construction, last character first. *)
Fixpoint split_sentences (mode : ScanMode) (cur : string) (s : string)
  : list string :=
  match s with
  | EmptyString => [String.rev cur]
  | String c rest =>
      match mode with
      | InSeparator =>
          if is_white_space c then split_sentences InSeparator cur rest
          else split_sentences (mode_after c) (String c cur) rest
      | AfterSentenceEnd =>
          if is_white_space c
          then String.rev cur :: split_sentences InSeparator EmptyString rest
          else split_sentences (mode_after c) (String c cur) rest
      | Elsewhere => split_sentences (mode_after c) (String c cur) rest
      end
  end.

Definition split_into_segments (text : string) : list string :=
  let t := js_trim text in
  if bool_decide (t = "") then []
  else
    let rough :=
      filter (λ s, s ≠ "")
             (js_trim <$> split_sentences Elsewhere EmptyString t) in
    if bool_decide (0 < length rough) then rough else [t].

(** The segments of the job as [start_mock_translation] first builds them. *)
Definition initial_segments (seg_texts : list string) : list TranslationSegment :=
  imap (λ i s, mkSegment ("seg-" +:+ pretty (i + 1)) s None pending pending 0%Z)
       seg_texts.

(** The mutation of the [i]-th base timer; nothing happens when there is no
    segment [i]. *)
Definition mark_base_ready (i : nat) (j : TranslationJob) : TranslationJob :=
  mkJob (job_id j)
        (alter (λ seg, mkSegment (seg_id seg) (source seg)
                         (Some ("«" +:+ source seg +:+ "»"))
                         stage_ready (spanStage seg) (variantCount seg))
               i (segments j))
        (ready j).

(** The mutation of the last timer. *)
Definition mark_all_ready (j : TranslationJob) : TranslationJob :=
  mkJob (job_id j)
        ((λ seg, mkSegment (seg_id seg) (source seg) (baseText seg)
                   (baseStage seg) stage_ready 6%Z) <$> segments j)
        true.

(** Timers: what [window.setTimeout] was given. *)
Inductive TimerAction : Type :=
  | BaseReady (i : nat)
  | Finish.

Record Timer : Type := mkTimer {
  delay : Z;
  action : TimerAction
}.

(** The timer that expires first, the earlier registered one among equals,
    and the timers left. *)
Fixpoint pop_earliest (ts : list Timer) : option (Timer * list Timer) :=
  match ts with
  | [] => None
  | t :: rest =>
      match pop_earliest rest with
      | None => Some (t, [])
      | Some (u, rest') =>
          if (delay u <? delay t)%Z then Some (u, t :: rest')
          else Some (t, rest)
      end
  end.

(** The timers registered by [start_mock_translation] for [n] segments, in
    the order of registration. *)
Definition mock_timers (n : nat) : list Timer :=
  ((λ i, mkTimer (500 + Z.of_nat i * 650)%Z (BaseReady i)) <$> seq 0 n)
  ++ [mkTimer (500 + Z.of_nat n * 650 + 600)%Z Finish].

(** What the caller observes: the callbacks invoked on it, and its own calls
    of [cancel()]. *)
Inductive Callback : Type :=
  | OnJob (j : TranslationJob)
  | OnDoc (d : option InteractiveDoc).

Inductive TraceItem : Type :=
  | Called (cb : Callback)
  | CancelCalled.

(** The variables closed over by the callbacks of a request, and the trace so
    far. *)
Record MockState : Type := mkMock {
  cur_job : TranslationJob;
  cancelled : bool;
  timers : list Timer;
  trace : list TraceItem
}.

(** The synchronous part of [start_mock_translation]; [now] is [Date.now()].
    The handle is returned after the two first callbacks have been invoked. *)
Definition start_mock_translation (now : Z) (storyText : string) : MockState :=
  let segs := initial_segments (split_into_segments storyText) in
  let j := mkJob ("job-" +:+ pretty now) segs false in
  mkMock j false (mock_timers (length segs))
         [Called (OnDoc None); Called (OnJob j)].

(** [handle.cancel()] *)
Definition cancel (st : MockState) : MockState :=
  mkMock (cur_job st) true [] (trace st ++ [CancelCalled]).

Section mock_run.
(** The document assembled from the segments of the job by the last timer
    ([inject_single_span], [make_variants]). *)
Context (build_doc : TranslationJob → InteractiveDoc).
(** The caller: whether its [onJob] callback calls [handle.cancel()] on the
    job it is given. *)
Context (onJob_cancels : TranslationJob → bool).

Definition update_job (mut : TranslationJob → TranslationJob)
    (st : MockState) : MockState :=
  if cancelled st then st
  else
    let next := mut (cur_job st) in
    let st' := mkMock next (cancelled st) (timers st)
                      (trace st ++ [Called (OnJob next)]) in
    if onJob_cancels next then cancel st' else st'.

Definition run_timer (a : TimerAction) (st : MockState) : MockState :=
  match a with
  | BaseReady i => update_job (mark_base_ready i) st
  | Finish =>
      let st' := update_job mark_all_ready st in
      mkMock (cur_job st') (cancelled st') (timers st')
             (trace st' ++ [Called (OnDoc (Some (build_doc (cur_job st'))))])
  end.

(** The next timer expires and its callback runs to completion. *)
Definition fire (st : MockState) : MockState :=
  match pop_earliest (timers st) with
  | None => st
  | Some (t, rest) =>
      run_timer (action t) (mkMock (cur_job st) (cancelled st) rest (trace st))
  end.

(** What happens next: a timer expires, or the caller cancels from outside
    a callback. *)
Inductive Step : Type := Fire | Cancel.

Definition step (st : MockState) (s : Step) : MockState :=
  match s with
  | Fire => fire st
  | Cancel => cancel st
  end.

Definition run (steps : list Step) (st : MockState) : MockState :=
  fold_left step steps st.
End mock_run.

(** The jobs handed to [onJob] in a trace. *)
Definition jobs_of (tr : list TraceItem) : list TranslationJob :=
  tr ≫= λ item, match item with Called (OnJob j) => [j] | _ => [] end.

Definition segment_ready (seg : TranslationSegment) : Prop :=
  baseStage seg = stage_ready ∧ spanStage seg = stage_ready.

(** The job-level flag is the conjunction over the segments. *)
Definition ready_is_conjunction (j : TranslationJob) : Prop :=
  ready j = true ↔ Forall segment_ready (segments j).

(** No callback is invoked after a call of [cancel()]. *)
Definition silent_after_cancel (tr : list TraceItem) : Prop :=
  ∀ before after, tr = before ++ CancelCalled :: after →
                  Forall (λ item, item = CancelCalled) after.

(** The timers still pending once the first [k] of [n] base timers have
    expired. *)
Definition pending_timers (k n : nat) : list Timer :=
  ((λ i, mkTimer (500 + Z.of_nat i * 650)%Z (BaseReady i)) <$> seq k (n - k))
  ++ [mkTimer (500 + Z.of_nat n * 650 + 600)%Z Finish].

(** The job while base timers are expiring: not ready, every span stage
    pending, the base stage ready for the first [k] segments. *)
Definition running_job (k n : nat) (j : TranslationJob) : Prop :=
  ready j = false ∧ length (segments j) = n
  ∧ ∀ i seg, segments j !! i = Some seg →
             spanStage seg = pending ∧ ((i < k)%nat → baseStage seg = stage_ready).

(** What holds of a request between two steps, for [n] segments. *)
Definition mock_invariant (n : nat) (st : MockState) : Prop :=
  Forall ready_is_conjunction (jobs_of (trace st))
  ∧ (timers st = []
     ∨ ∃ k, (k ≤ n)%nat ∧ timers st = pending_timers k n
            ∧ cancelled st = false ∧ running_job k n (cur_job st)).

(** A caller that never cancels from a callback, one that cancels as soon as
    the job is ready, and a stand-in for the assembled document. *)
Definition never_cancels (j : TranslationJob) : bool := false.
Definition cancels_when_ready (j : TranslationJob) : bool := ready j.
Definition empty_doc (j : TranslationJob) : InteractiveDoc := mkDoc [] ∅.

(** ** Phrases of the practice view (PracticeView) *)

Record Phrase : Type := mkPhrase {
  phrase_text : string;
  phrase_sourceText : string;
  phrase_language : string
}.

(** A [for ... of] loop whose body may throw. *)
Fixpoint for_of {A S : Type} (body : S → A → Completion S) (arr : list A)
    (s : S) : Completion S :=
  match arr with
  | [] => mret s
  | x :: rest => s' ← body s x; for_of body rest s'
  end.

(** [arr.map(f)] for an [f] that may throw. *)
Fixpoint array_map {A B : Type} (f : A → Completion B) (arr : list A)
  : Completion (list B) :=
  match arr with
  | [] => mret []
  | x :: rest => y ← f x; ys ← array_map f rest; mret (y :: ys)
  end.

(** One iteration of [for (const tok of block)], on [(text, sourceText)]. *)
Definition practice_token (d : InteractiveDoc) (acc : string * string)
    (tok : DocToken) : Completion (string * string) :=
  match tok with
  | TokText value => mret (acc.1 +:+ value, acc.2 +:+ value)
  | TokSpan spanId =>
      p ← practice_span d spanId; mret (acc.1 +:+ p.1, acc.2 +:+ p.2)
  end.

Definition practice_phrase (d : InteractiveDoc) (lang : string)
    (block : list DocToken) : Completion Phrase :=
  acc ← for_of (practice_token d) block ("", "");
  mret (mkPhrase (js_trim acc.1) (js_trim acc.2) lang).

(** [phrases], from the translation in use. *)
Definition practice_phrases (activeTranslation : option StoryTranslation)
  : Completion (list Phrase) :=
  match activeTranslation ≫= doc with
  | None => mret []
  | Some d =>
      let lang := default "en" (opt_member activeTranslation language) in
      ps ← array_map (practice_phrase d lang) (split_blocks (tokens d));
      mret (filter (λ p, phrase_text p ≠ "") ps)
  end.

(** The phrase of a block, as a value. *)
Definition practice_token_text (d : InteractiveDoc) (tok : DocToken) : string :=
  match tok with
  | TokText value => value
  | TokSpan spanId => practice_text d spanId
  end.

Definition practice_token_source (d : InteractiveDoc) (tok : DocToken) : string :=
  match tok with
  | TokText value => value
  | TokSpan spanId => practice_source d spanId
  end.

Definition phrase_of_block (d : InteractiveDoc) (lang : string)
    (block : list DocToken) : Phrase :=
  mkPhrase (js_trim (concat_texts (practice_token_text d <$> block)))
           (js_trim (concat_texts (practice_token_source d <$> block)))
           lang.

(** ** The application shell: displayed document and stored stories (App)

    The handlers below are the callbacks of [makeTranslationCallbacks], the
    mock-fallback [onDoc] of [startTranslation] and [onSetActiveVariant],
    as functions of the React state they read and write.  [created] is the
    [now] captured by [startTranslation], [clock] the value of [Date.now()]
    when the handler runs. *)

Record AppState : Type := mkApp {
  app_doc : option InteractiveDoc;
  app_job : option TranslationJob;
  app_error : option string;
  app_stories : list Story
}.

(** [{ ...st, updatedAt, translations: { ...st.translations, [language]: t } }] *)
Definition put_translation (clock : Z) (lang : string) (t : StoryTranslation)
    (st : Story) : Story :=
  mkStory (story_id st) (title st) (category st) (createdAt st) clock
          (story_sourceText st) (sourceLanguage st)
          (<[lang := t]> (translations st)).

(** [prevStories.map((st) => st.id !== storyId ? st : f(st))] *)
Definition map_story (storyId : string) (f : Story → Story)
    (stories : list Story) : list Story :=
  (λ st, if bool_decide (story_id st ≠ storyId) then st else f st) <$> stories.

(** The translation written by [onJob] for a story. *)
Definition job_translation (created : Z) (lang : string)
    (incoming : TranslationJob) (st : Story) : StoryTranslation :=
  let prevT := translations st !! lang in
  mkTranslation lang (default created (opt_member prevT tr_createdAt))
                (Some incoming) (prevT ≫= doc) (prevT ≫= errorMessage).

Definition app_onJob (storyId lang : string) (created clock : Z)
    (incoming : TranslationJob) (s : AppState) : AppState :=
  mkApp (app_doc s) (Some incoming) (app_error s)
        (map_story storyId
           (λ st, put_translation clock lang
                    (job_translation created lang incoming st) st)
           (app_stories s)).

(** The translation written by the two [onDoc] handlers; the mock fallback
    clears the error message, the translation callbacks keep it. *)
Definition doc_translation (created : Z) (lang : string) (d : InteractiveDoc)
    (keep_error : bool) (st : Story) : StoryTranslation :=
  let prevT := translations st !! lang in
  mkTranslation lang (default created (opt_member prevT tr_createdAt))
                (prevT ≫= job) (Some d)
                (if keep_error then prevT ≫= errorMessage else None).

(** [makeTranslationCallbacks(..).onDoc]: the stories are written from inside
    the [setDoc] updater, after its early return. *)
Definition app_onDoc (storyId lang : string) (created clock : Z)
    (incoming : InteractiveDoc) (s : AppState) : AppState :=
  match app_doc s with
  | None => mkApp (Some incoming) (app_job s) (app_error s) (app_stories s)
  | Some prev =>
      let nextDoc := merge_doc prev incoming in
      mkApp (Some nextDoc) (app_job s) (app_error s)
            (map_story storyId
               (λ st, put_translation clock lang
                        (doc_translation created lang nextDoc true st) st)
               (app_stories s))
  end.

(** The mock-fallback [onDoc] of [startTranslation]. *)
Definition app_mock_onDoc (storyId lang : string) (created clock : Z)
    (incoming : option InteractiveDoc) (s : AppState) : AppState :=
  match incoming with
  | None => mkApp None (app_job s) (app_error s) (app_stories s)
  | Some d =>
      mkApp (Some d) (app_job s) (app_error s)
            (map_story storyId
               (λ st, put_translation clock lang
                        (doc_translation created lang d false st) st)
               (app_stories s))
  end.

(** [makeTranslationCallbacks(..).onError] *)
Definition error_translation (created : Z) (lang message : string) (st : Story)
  : StoryTranslation :=
  let prevT := translations st !! lang in
  mkTranslation lang (default created (opt_member prevT tr_createdAt))
                (prevT ≫= job) (prevT ≫= doc) (Some message).

Definition app_onError (storyId lang : string) (created clock : Z)
    (message : string) (s : AppState) : AppState :=
  mkApp (app_doc s) (app_job s) (Some message)
        (map_story storyId
           (λ st, put_translation clock lang
                    (error_translation created lang message st) st)
           (app_stories s)).

(** A string that is neither null nor empty. *)
Definition truthy (o : option string) : option string :=
  match o with
  | Some s => if bool_decide (s = "") then None else Some s
  | None => None
  end.

(** [onSetActiveVariant]: the updater passed to [setDoc], and what it writes
    to the stories on the way. *)
Definition set_variant_doc (spanId : string) (variantIndex : Z)
    (prev : option InteractiveDoc) : StateUpdate :=
  match prev with
  | None => Keep
  | Some p =>
      match spans p !! spanId with
      | None => Keep
      | Some span =>
          Replace (Some (mkDoc (tokens p)
                           (<[spanId := with_activeVariantIndex span variantIndex]>
                              (spans p))))
      end
  end.

Definition set_variant_story (clock : Z) (lang : string) (nextDoc : InteractiveDoc)
    (st : Story) : Story :=
  match translations st !! lang with
  | None => st
  | Some prevT =>
      put_translation clock lang
        (mkTranslation (language prevT) (tr_createdAt prevT) (job prevT)
                       (Some nextDoc) (errorMessage prevT))
        st
  end.

Definition app_onSetActiveVariant (activeStoryId activeStoryLanguage : option string)
    (clock : Z) (spanId : string) (variantIndex : Z) (s : AppState) : AppState :=
  match set_variant_doc spanId variantIndex (app_doc s) with
  | Keep => s
  | Replace next =>
      mkApp next (app_job s) (app_error s)
        match truthy activeStoryId, truthy activeStoryLanguage, next with
        | Some storyId, Some lang, Some nextDoc =>
            map_story storyId (set_variant_story clock lang nextDoc)
                      (app_stories s)
        | _, _, _ => app_stories s
        end
  end.

(** The document stored for [lang] in a story. *)
Definition stored_doc (lang : string) (st : Story) : option InteractiveDoc :=
  translations st !! lang ≫= doc.

(** The entries of the variant menu of a span (CompilerView.tsx, interactive
    mode): the variants with their positions, without the vulgar ones under
    the filter. *)
Definition menu_items (contentFilterEnabled : bool) (span : Span)
  : list (Variant * nat) :=
  filter (λ item, contentFilterEnabled = true → v_register item.1 ≠ vulgar)
         (imap (λ idx v, (v, idx)) (variants span)).

(** ** Decks and sessions (ReviewView.tsx) *)

(** [deckCards], [deckCardsFiltered] and [visibleCards]. *)
Definition deckCards (cards : list Flashcard) (selectedStoryId : option string)
  : list Flashcard :=
  match truthy selectedStoryId with
  | Some sid => filter (λ c, storyId c = sid) cards
  | None => cards
  end.

(** The callback of the filter in [deckCardsFiltered]. *)
Definition deck_keeps (selectedLanguage : option string)
    (selectedRegister : option RegisterId) (c : Flashcard) : bool :=
  if match truthy selectedLanguage with
     | Some l => bool_decide (card_language c ≠ l)
     | None => false
     end
  then false
  else if match selectedRegister with
          | Some r => bool_decide (register c ≠ r)
          | None => false
          end
  then false
  else true.

Definition deckCardsFiltered (deck : list Flashcard)
    (selectedLanguage : option string) (selectedRegister : option RegisterId)
  : list Flashcard :=
  filter (λ c, deck_keeps selectedLanguage selectedRegister c = true) deck.

Definition visibleCards (filtered : list Flashcard) (deletedIds : gset string)
    (showDeleted : bool) : list Flashcard :=
  if showDeleted then filter (λ c, card_id c ∈ deletedIds) filtered
  else filter (λ c, card_id c ∉ deletedIds) filtered.

(** [visibleById]: a [Map] filled in order, a later card winning. *)
Definition visibleById (visible : list Flashcard) : gmap string Flashcard :=
  fold_left (λ m c, <[card_id c := c]> m) visible ∅.

(** [sessionCards] *)
Definition sessionCards (sessionMode : bool) (sessionOrder : option (list string))
    (visible : list Flashcard) : list Flashcard :=
  if negb sessionMode then visible
  else
    match sessionOrder with
    | None => visible
    | Some order =>
        fold_left (λ ordered id, match visibleById visible !! id with
                                 | Some c => ordered ++ [c]
                                 | None => ordered
                                 end)
                  order []
    end.

(** [active]: the card under the cursor. *)
Definition active_card (session : list Flashcard) (cursor : Z) : option Flashcard :=
  if bool_decide (0 < length session)
  then js_index session (Z.rem cursor (Z.of_nat (length session)))
  else None.

(** [shuffle].  [pick i] stands for [Math.floor(Math.random() * (i + 1))] at
    the iteration for [i].  The exchange of [next[i]] and [next[j]] is
    modelled for positions inside the array; [None] is an exchange with a
    position outside of it. *)
Definition exchange {A : Type} (i j : nat) (next : list A) : option (list A) :=
  x ← next !! i; y ← next !! j; Some (<[j := x]> (<[i := y]> next)).

Fixpoint shuffle_down {A : Type} (pick : nat → nat) (i : nat) (next : list A)
  : option (list A) :=
  match i with
  | 0 => Some next
  | S i' => next' ← exchange i (pick i) next; shuffle_down pick i' next'
  end.

Definition shuffle {A : Type} (pick : nat → nat) (items : list A)
  : option (list A) :=
  shuffle_down pick (length items - 1) items.

(** The counter "active / all" of the deck header. *)
Definition deck_counter (filtered : list Flashcard) (deletedIds : gset string)
  : nat * nat :=
  (length (filter (λ c, card_id c ∉ deletedIds) filtered), length filtered).

(** ** More on the mock driver and the progress display *)

(** Leading white space dropped from a list of characters. *)
Fixpoint drop_white (l : list Ascii.ascii) : list Ascii.ascii :=
  match l with
  | [] => []
  | c :: rest => if is_white_space c then drop_white rest else l
  end.

(** A job that a later update of the same request may follow: the same
    request, the same segments with the same sources, no stage taken back. *)
Definition segment_progress (seg seg' : TranslationSegment) : Prop :=
  seg_id seg' = seg_id seg ∧ source seg' = source seg
  ∧ (baseStage seg = stage_ready → baseStage seg' = stage_ready)
  ∧ (spanStage seg = stage_ready → spanStage seg' = stage_ready).

Definition job_progress (j j' : TranslationJob) : Prop :=
  job_id j' = job_id j
  ∧ Forall2 segment_progress (segments j) (segments j')
  ∧ (ready j = true → ready j' = true).

(** The documents handed to [onDoc] in a trace. *)
Definition docs_of (tr : list TraceItem) : list (option InteractiveDoc) :=
  tr ≫= λ item, match item with Called (OnDoc d) => [d] | _ => [] end.

(** The counters of the expanded view (CompilerView.tsx): [baseReady],
    [spanReady] and [total]. *)
Definition baseReady (job : option TranslationJob) : nat :=
  match job with
  | Some j => length (filter (λ s, baseStage s = stage_ready) (segments j))
  | None => 0
  end.

Definition spanReady (job : option TranslationJob) : nat :=
  match job with
  | Some j => length (filter (λ s, spanStage s = stage_ready) (segments j))
  | None => 0
  end.

Definition total (job : option TranslationJob) : nat :=
  match job with
  | Some j => length (segments j)
  | None => 0
  end.

(** The job of a request once the first [k] base timers have expired. *)
Definition job_after (k : nat) (now : Z) (seg_texts : list string) : TranslationJob :=
  mkJob ("job-" +:+ pretty now)
        (imap (λ i s, mkSegment ("seg-" +:+ pretty (i + 1)) s
                        (if bool_decide (i < k) then Some ("«" +:+ s +:+ "»")
                         else None)
                        (if bool_decide (i < k) then stage_ready else pending)
                        pending 0%Z)
              seg_texts)
        false.

(** What holds of the documents of a request between two steps, for [n]
    segments: while timers are pending only the reset has been delivered;
    afterwards at most one document has followed it, built from the last
    job handed to [onJob], which is ready. *)
Definition doc_invariant (build_doc : TranslationJob → InteractiveDoc)
    (n : nat) (st : MockState) : Prop :=
  (timers st = []
   ∧ (docs_of (trace st) = [None]
      ∨ ∃ j, docs_of (trace st) = [None; Some (build_doc j)]
             ∧ ready j = true ∧ last (jobs_of (trace st)) = Some j))
  ∨ (∃ k, (k ≤ n)%nat ∧ timers st = pending_timers k n
          ∧ cancelled st = false ∧ docs_of (trace st) = [None]).

(** [handleOpenInLanguage]: what it writes to the displayed document, job
    and error and to the stories; the flag says whether [startTranslation]
    is called.  A running translation is cancelled first. *)
Definition handleOpenInLanguage (storyId language : string) (now : Z)
    (s : AppState) : AppState * bool :=
  match array_find (λ x, bool_decide (story_id x = storyId)) (app_stories s) with
  | None => (s, false)
  | Some st =>
      if bool_decide (language = "original")
      then (mkApp None None None (app_stories s), false)
      else
        match translations st !! language with
        | Some translation =>
            (mkApp (doc translation) (job translation)
                   (errorMessage translation) (app_stories s), false)
        | None =>
            (mkApp None None None
                   (map_story storyId
                      (put_translation now language
                         (mkTranslation language now None None None))
                      (app_stories s)),
             true)
        end
  end.

(** ** The translation practised (PracticeView) *)

Definition has_doc (t : StoryTranslation) : bool := bool_decide (is_Some (doc t)).

(** [storiesWithDocs] and [selectedStory]. *)
Definition storiesWithDocs (stories : list Story) : list Story :=
  filter (λ s, Exists (λ e, has_doc e.2 = true) (map_to_list (translations s)))
         stories.

Definition selectedStory (stories : list Story) (selectedStoryId : option string)
  : option Story :=
  array_find (λ s, bool_decide (Some (story_id s) = selectedStoryId))
             (storiesWithDocs stories).

(** [availableLanguages]: the keys of the translations with a document,
    sorted by [sort()] without a comparator, that is by code units. *)
Definition availableLanguages (selected : option Story) : list string :=
  match selected with
  | None => []
  | Some s =>
      array_sort code_unit_compare
        (fst <$> filter (λ e, has_doc e.2 = true) (map_to_list (translations s)))
  end.

(** [activeTranslation] *)
Definition activeTranslation (selected : option Story)
    (selectedLanguage : option string) : option StoryTranslation :=
  match selected with
  | None => None
  | Some s =>
      let chosen :=
        l ← truthy selectedLanguage;
        t ← translations s !! l;
        if has_doc t then Some t else None in
      match chosen with
      | Some t => Some t
      | None =>
          first ← truthy (head (availableLanguages selected));
          translations s !! first
      end
  end.

(** [activePhrase] and the two buttons that move the cursor; a disabled
    button does nothing. *)
Definition activePhrase (phrases : list Phrase) (cursor : Z) : option Phrase :=
  if bool_decide (0 < length phrases)
  then js_index phrases (Z.rem cursor (Z.of_nat (length phrases)))
  else None.

Inductive PracticeButton : Type := PREV | NEXT.

Definition press (phrases : list Phrase) (cursor : Z) (b : PracticeButton) : Z :=
  match b with
  | PREV =>
      if (cursor <=? 0)%Z then cursor else Z.max 0 (cursor - 1)
  | NEXT =>
      if (Z.of_nat (length phrases) - 1 <=? cursor)%Z then cursor
      else Z.min (Z.of_nat (length phrases) - 1) (cursor + 1)
  end.

(** ** The language a library row opens (LibraryView.tsx) *)

(** [defaultLanguage]; [values] is [Object.values(s.translations)], in the
    order of the object. *)
Definition defaultLanguage (targetLanguage : string) (s : Story)
    (values : list StoryTranslation) : string :=
  match translations s !! targetLanguage with
  | Some _ => targetLanguage
  | None =>
      match array_sort (λ a b, (tr_createdAt b - tr_createdAt a)%Z) values with
      | [] => targetLanguage
      | newest :: _ => language newest
      end
  end.

(** ** The columns of the expanded view (CompilerView.tsx) *)

(** [visibleRegisters] *)
Definition visibleRegisters (contentFilterEnabled : bool) : list RegisterId :=
  let all := [formal; literary; neutral; casual; colloquial; vulgar] in
  if contentFilterEnabled then filter (λ r, r ≠ vulgar) all else all.

(** The variant whose text [renderBlockForRegister] shows for a span:
    [direct ?? neutral ?? span.variants[0]]. *)
Definition register_variant (register : RegisterId) (vs : list Variant)
  : option Variant :=
  array_find (has_register register) vs
  ?? array_find (has_register neutral) vs
  ?? js_index vs 0.

(** ** The categories offered (App) *)

(** [allCategories]: the defaults and the categories of the stories, each
    once, sorted by [sort()] without a comparator. *)
Definition default_categories : list string :=
  ["Daily Life"; "Travel"; "Work"; "Childhood"; "Food & Dining"; "Conflict";
   "Reflection"].

Definition allCategories (stories : list Story) : list string :=
  let fromStories := omap category stories in
  array_sort code_unit_compare (remove_dups (default_categories ++ fromStories)).

(** ** The languages offered (languages.ts, LanguagePicker) *)

Record Language : Type := mkLanguage {
  lang_code : string;
  lang_label : string
}.

#[global] Instance Language_eq_dec : EqDecision Language.
Proof. solve_decision. Defined.

Definition TTS_LANGUAGES : list Language :=
  [mkLanguage "en" "English"; mkLanguage "fr" "French";
   mkLanguage "es" "Spanish"; mkLanguage "ja" "Japanese";
   mkLanguage "zh" "Chinese"; mkLanguage "it" "Italian";
   mkLanguage "pt" "Portuguese"; mkLanguage "hi" "Hindi";
   mkLanguage "en-gb" "English (GB)"].

Definition OTHER_LANGUAGES : list Language :=
  [mkLanguage "de" "German"; mkLanguage "ko" "Korean";
   mkLanguage "ru" "Russian"; mkLanguage "ar" "Arabic";
   mkLanguage "tr" "Turkish"; mkLanguage "nl" "Dutch";
   mkLanguage "sv" "Swedish"; mkLanguage "pl" "Polish"].

Definition ALL_LANGUAGES : list Language := TTS_LANGUAGES ++ OTHER_LANGUAGES.

Definition hasTts (code : string) : bool :=
  bool_decide (Exists (λ l, lang_code l = code) TTS_LANGUAGES).

Definition languageLabel (code : string) : string :=
  default code
    (lang_label <$> array_find (λ l, bool_decide (lang_code l = code))
                               ALL_LANGUAGES).

(** The four lists of the picker.  [myLanguages] is what [loadMyLanguages]
    returned and [translatedKeys] is [Object.keys(translations)]. *)
Definition isSourceLang (sourceLanguage : option string) (code : string) : bool :=
  match truthy sourceLanguage with
  | Some src => bool_decide (code = src)
  | None => false
  end.

Definition offered (myLanguages : list Language) (sourceLanguage : option string)
    (l : Language) : Prop :=
  (lang_code l ∉ lang_code <$> myLanguages)
  ∧ isSourceLang sourceLanguage (lang_code l) = false.

Definition ttsFiltered (myLanguages : list Language)
    (sourceLanguage : option string) : list Language :=
  filter (offered myLanguages sourceLanguage) TTS_LANGUAGES.

Definition otherFiltered (myLanguages : list Language)
    (sourceLanguage : option string) : list Language :=
  filter (offered myLanguages sourceLanguage) OTHER_LANGUAGES.

Definition myLanguagesFiltered (myLanguages : list Language)
    (sourceLanguage : option string) : list Language :=
  filter (λ l, isSourceLang sourceLanguage (lang_code l) = false) myLanguages.

Definition extraTranslated (myLanguages : list Language)
    (translatedKeys : list string) : list Language :=
  let allListedCodes :=
    (lang_code <$> myLanguages) ++ (lang_code <$> ALL_LANGUAGES) in
  (λ code, mkLanguage code code)
    <$> filter (λ code, code ∉ allListedCodes) (remove_dups translatedKeys).

(** * Properties *)

(** ** Block segmentation *)

Lemma fold_block_step toks blocks cur :
  (fold_left block_step toks (blocks, cur)).1
    ++ [(fold_left block_step toks (blocks, cur)).2]
  = blocks ++ blocks_from cur toks.
Proof.
  revert blocks cur. induction toks as [|tok rest IH]; intros blocks cur; simpl.
  - done.
  - unfold block_step at 2 4. simpl. destruct (is_separator tok).
    + rewrite IH. by rewrite <- app_assoc.
    + by rewrite IH.
Qed.

Lemma split_blocks_from toks : split_blocks toks = blocks_from [] toks.
Proof. unfold split_blocks. by rewrite fold_block_step. Qed.

Lemma is_separator_true tok :
  is_separator tok = true → tok = TokText block_separator.
Proof.
  destruct tok as [value|sid]; simpl; [|done].
  intros H. apply bool_decide_eq_true in H. by subst.
Qed.

Lemma blocks_from_length cur toks :
  length (blocks_from cur toks) = S (separator_count toks).
Proof.
  revert cur. unfold separator_count.
  induction toks as [|tok rest IH]; intros cur; simpl; [done|].
  rewrite filter_cons. destruct (is_separator tok) eqn:E.
  - rewrite decide_True by done. simpl. by rewrite IH.
  - rewrite decide_False by done. by rewrite IH.
Qed.

Lemma blocks_from_nonempty cur toks : blocks_from cur toks ≠ [].
Proof.
  intros H. apply (f_equal length) in H. by rewrite blocks_from_length in H.
Qed.

Lemma rejoin_cons b rest :
  rest ≠ [] → rejoin (b :: rest) = b ++ TokText block_separator :: rejoin rest.
Proof. by destruct rest. Qed.

Lemma blocks_from_rejoin cur toks : rejoin (blocks_from cur toks) = cur ++ toks.
Proof.
  revert cur. induction toks as [|tok rest IH]; intros cur; simpl.
  - by rewrite app_nil_r.
  - destruct (is_separator tok) eqn:E.
    + rewrite rejoin_cons by apply blocks_from_nonempty.
      rewrite IH. simpl. by rewrite (is_separator_true _ E).
    + rewrite IH. by rewrite <- app_assoc.
Qed.

Lemma blocks_from_no_separator cur toks :
  Forall (λ tok, is_separator tok = false) cur →
  Forall (Forall (λ tok, is_separator tok = false)) (blocks_from cur toks).
Proof.
  revert cur. induction toks as [|tok rest IH]; intros cur Hcur; simpl.
  - by constructor.
  - destruct (is_separator tok) eqn:E.
    + constructor; [done|]. by apply IH.
    + apply IH. apply Forall_app. split; [done|]. by constructor.
Qed.

Lemma blocks_from_single cur toks :
  separator_count toks = 0 → blocks_from cur toks = [cur ++ toks].
Proof.
  revert cur. unfold separator_count.
  induction toks as [|tok rest IH]; intros cur; simpl.
  - by rewrite app_nil_r.
  - rewrite filter_cons. destruct (is_separator tok) eqn:E.
    + rewrite decide_True by done. done.
    + rewrite decide_False by done. intros H. rewrite IH by done.
      by rewrite <- app_assoc.
Qed.


(** ** Rendering a block under a register *)

Section array_find.
Context {A : Type} (p : A → bool).

Lemma array_find_here pre v post :
  Forall (λ w, p w = false) pre → p v = true →
  array_find p (pre ++ v :: post) = Some v.
Proof.
  intros Hpre Hv. unfold array_find.
  induction Hpre as [|w pre Hw _ IH]; simpl.
  - by rewrite decide_True.
  - rewrite decide_False by congruence.
    destruct (list_find _ (pre ++ v :: post)) as [[i x]|]; by simplify_eq/=.
Qed.

Lemma array_find_absent vs :
  Forall (λ w, p w = false) vs → array_find p vs = None.
Proof.
  intros H. unfold array_find.
  rewrite (proj2 (list_find_None _ vs)); [done|].
  eapply Forall_impl; [exact H|]. simpl. congruence.
Qed.

Lemma array_find_Some vs v :
  array_find p vs = Some v →
  ∃ pre post, vs = pre ++ v :: post ∧ p v = true
              ∧ Forall (λ w, p w = false) pre.
Proof.
  unfold array_find. destruct (list_find _ vs) as [[i x]|] eqn:E; [|done].
  simpl. intros [= ->]. apply list_find_Some in E as (Hi & Hv & Hbefore).
  exists (take i vs), (drop (S i) vs). split_and!.
  - by rewrite take_drop_middle.
  - done.
  - apply Forall_forall. intros w Hw.
    apply list_elem_of_lookup in Hw as [j Hj].
    apply lookup_take_Some in Hj as [Hj Hlt].
    specialize (Hbefore j w Hj Hlt). by destruct (p w).
Qed.

Lemma array_find_None vs :
  array_find p vs = None → Forall (λ w, p w = false) vs.
Proof.
  unfold array_find. destruct (list_find _ vs) as [[i x]|] eqn:E; [done|].
  intros _. apply list_find_None in E.
  eapply Forall_impl; [exact E|]. simpl. intros w. by destruct (p w).
Qed.
End array_find.

Lemma has_register_true r v : has_register r v = true ↔ v_register v = r.
Proof. unfold has_register. apply bool_decide_eq_true. Qed.

Lemma has_register_false r v : has_register r v = false ↔ v_register v ≠ r.
Proof. unfold has_register. apply bool_decide_eq_false. Qed.

Lemma Forall_has_register_false r vs :
  Forall (λ w, has_register r w = false) vs ↔ Forall (λ w, v_register w ≠ r) vs.
Proof. apply Forall_proper; [|done]. intros w. apply has_register_false. Qed.

Lemma register_choice_sound r vs : register_choice r vs (span_register_text r vs).
Proof.
  unfold span_register_text. case_bool_decide as Hlen.
  { apply choice_placeholder. by apply nil_length_inv. }
  destruct (array_find (has_register r) vs) as [v|] eqn:Ed; simpl.
  { apply array_find_Some in Ed as (pre & post & -> & Hv & Hpre).
    eapply choice_direct; [done| |].
    - by apply has_register_true.
    - by apply Forall_has_register_false. }
  apply array_find_None, Forall_has_register_false in Ed.
  destruct (array_find (has_register neutral) vs) as [v|] eqn:En; simpl.
  { apply array_find_Some in En as (pre & post & -> & Hv & Hpre).
    eapply choice_neutral; [done|done| |].
    - by apply has_register_true.
    - by apply Forall_has_register_false. }
  apply array_find_None, Forall_has_register_false in En.
  destruct vs as [|v rest]; [done|]. simpl.
  eapply choice_first; [|done].
  apply Forall_forall. intros w Hw. split.
  - by eapply (proj1 (Forall_forall _ _) Ed).
  - by eapply (proj1 (Forall_forall _ _) En).
Qed.

Lemma register_choice_complete r vs t :
  register_choice r vs t → span_register_text r vs = t.
Proof.
  unfold span_register_text.
  intros [pre v post -> Hv Hpre|pre v post Hno -> Hv Hpre|v rest Hno ->| ->].
  - rewrite bool_decide_eq_false_2 by (rewrite length_app; simpl; lia).
    rewrite array_find_here; [done| |by apply has_register_true].
    by apply Forall_has_register_false.
  - rewrite bool_decide_eq_false_2 by (rewrite length_app; simpl; lia).
    rewrite array_find_absent by by apply Forall_has_register_false.
    rewrite array_find_here; [done| |by apply has_register_true].
    by apply Forall_has_register_false.
  - rewrite bool_decide_eq_false_2 by done.
    rewrite !array_find_absent; [done| |].
    + apply Forall_has_register_false. eapply Forall_impl; [exact Hno|]. by intros w [? ?].
    + apply Forall_has_register_false. eapply Forall_impl; [exact Hno|]. by intros w [? ?].
  - done.
Qed.

Lemma string_app_nil_r (s : string) : s +:+ "" = s.
Proof.
  induction s as [|c s IH]; [done|].
  change (String c (s +:+ "") = String c s). by rewrite IH.
Qed.

Lemma string_app_assoc (s1 s2 s3 : string) :
  (s1 +:+ s2) +:+ s3 = s1 +:+ (s2 +:+ s3).
Proof.
  induction s1 as [|c s1 IH]; [done|].
  change (String c ((s1 +:+ s2) +:+ s3) = String c (s1 +:+ (s2 +:+ s3))).
  by rewrite IH.
Qed.

Lemma fold_left_append {A : Type} (f : A → string) (l : list A) (acc : string) :
  fold_left (λ out x, out +:+ f x) l acc = acc +:+ concat_texts (f <$> l).
Proof.
  revert acc. induction l as [|x l IH]; intros acc; simpl.
  - by rewrite string_app_nil_r.
  - rewrite IH. by rewrite string_app_assoc.
Qed.


(** ** Selection-preserving merge *)

Lemma merge_fold_lookup (prev : InteractiveDoc) (start m : gmap string Span)
    (spanId : string) :
  map_fold (merge_step prev) start m !! spanId
  = match m !! spanId, spans prev !! spanId with
    | Some nextSpan, Some prevSpan =>
        Some (with_activeVariantIndex nextSpan (activeVariantIndex prevSpan))
    | _, _ => start !! spanId
    end.
Proof.
  apply (map_fold_weak_ind (λ acc m',
    acc !! spanId
    = match m' !! spanId, spans prev !! spanId with
      | Some nextSpan, Some prevSpan =>
          Some (with_activeVariantIndex nextSpan (activeVariantIndex prevSpan))
      | _, _ => start !! spanId
      end)).
  - by rewrite lookup_empty.
  - intros k nextSpan m' acc Hfresh IH. unfold merge_step.
    destruct (decide (k = spanId)) as [->|Hne].
    + rewrite lookup_insert_eq.
      destruct (spans prev !! spanId) as [prevSpan|] eqn:Ep.
      * by rewrite lookup_insert_eq.
      * rewrite IH, Hfresh. done.
    + rewrite (lookup_insert_ne m') by done.
      destruct (spans prev !! k); [|done].
      by rewrite lookup_insert_ne.
Qed.

Lemma merge_doc_lookup (prev incoming : InteractiveDoc) (spanId : string) :
  spans (merge_doc prev incoming) !! spanId
  = match spans incoming !! spanId with
    | None => None
    | Some nextSpan =>
        match spans prev !! spanId with
        | Some prevSpan =>
            Some (with_activeVariantIndex nextSpan (activeVariantIndex prevSpan))
        | None => Some nextSpan
        end
    end.
Proof.
  unfold merge_doc. simpl. rewrite merge_fold_lookup.
  destruct (spans incoming !! spanId) as [nextSpan|] eqn:Ei; [|done].
  by destruct (spans prev !! spanId).
Qed.



(** C10. The merge copies the previous active index as it is: when it is at
    least the number of variants of the incoming span, the merged span has
    the incoming variants, the previous index, and breaks the Span invariant
    [0 <= activeVariantIndex < variants.length]. *)
Theorem C10_merge_keeps_stale_index (prev incoming : InteractiveDoc)
    (spanId : string) (prevSpan nextSpan : Span) :
  spans prev !! spanId = Some prevSpan →
  spans incoming !! spanId = Some nextSpan →
  (Z.of_nat (length (variants nextSpan)) ≤ activeVariantIndex prevSpan)%Z →
  ∃ merged d,
    onDoc (Some prev) incoming = Some d
    ∧ spans d !! spanId = Some merged
    ∧ variants merged = variants nextSpan
    ∧ activeVariantIndex merged = activeVariantIndex prevSpan
    ∧ ¬ index_in_range merged.
Proof.
  intros Hp Hi Hlen.
  exists (with_activeVariantIndex nextSpan (activeVariantIndex prevSpan)),
         (merge_doc prev incoming).
  split_and!; try done.
  - by rewrite merge_doc_lookup, Hi, Hp.
  - unfold index_in_range. simpl. lia.
Qed.

Lemma C10_merge_keeps_stale_index_witness :
  ∃ merged d,
    onDoc (Some doc_user) doc_backend_short = Some d
    ∧ spans d !! "s1" = Some merged
    ∧ variants merged = take 2 (sample_variants "s1" "monde")
    ∧ activeVariantIndex merged = 2%Z
    ∧ ¬ index_in_range merged.
Proof.
  apply (C10_merge_keeps_stale_index doc_user doc_backend_short "s1"
           (mkSpan "s1" "world" (sample_variants "s1" "monde") 2%Z)
           (mkSpan "s1" "world" (take 2 (sample_variants "s1" "monde")) 0%Z)).
  - reflexivity.
  - reflexivity.
  - simpl. lia.
Defined.

(** ** Content-filter re-selection *)

Lemma filter_step_reselect spanId span st :
  filter_step spanId span st
  = match reselect span with
    | Some span' => (true, <[spanId := span']> st.2)
    | None => st
    end.
Proof.
  unfold filter_step, reselect, array_findIndex.
  destruct (js_index (variants span) (activeVariantIndex span)) as [active|];
    simpl; [|done].
  destruct (decide (v_register active = vulgar)) as [Hv|Hv].
  - rewrite bool_decide_eq_true_2 by congruence.
    rewrite (bool_decide_eq_true_2 _ Hv). simpl.
    destruct (list_find _ (variants span)) as [[i w]|]; [|done].
    by rewrite (proj2 (Z.ltb_ge _ _)) by lia.
  - rewrite bool_decide_eq_false_2 by congruence.
    by rewrite (bool_decide_eq_false_2 _ Hv).
Qed.

Lemma filter_fold_spans (c0 : bool) (start m : gmap string Span) (spanId : string) :
  (map_fold filter_step (c0, start) m).2 !! spanId
  = match m !! spanId ≫= reselect with
    | Some span' => Some span'
    | None => start !! spanId
    end.
Proof.
  apply (map_fold_weak_ind (λ st m',
    st.2 !! spanId = match m' !! spanId ≫= reselect with
                     | Some span' => Some span'
                     | None => start !! spanId
                     end)).
  - by rewrite lookup_empty.
  - intros k span m' st Hfresh IH. rewrite filter_step_reselect.
    destruct (decide (k = spanId)) as [->|Hne].
    + rewrite lookup_insert_eq. simpl.
      destruct (reselect span) as [span'|]; simpl.
      * by rewrite lookup_insert_eq.
      * by rewrite IH, Hfresh.
    + rewrite (lookup_insert_ne m') by done.
      destruct (reselect span) as [span'|]; simpl; [|done].
      by rewrite lookup_insert_ne.
Qed.

Lemma filter_fold_changed (c0 : bool) (start m : gmap string Span) :
  (map_fold filter_step (c0, start) m).1 = true
  ↔ c0 = true ∨ ∃ spanId span, m !! spanId = Some span ∧ is_Some (reselect span).
Proof.
  apply (map_fold_weak_ind (λ st m',
    st.1 = true
    ↔ c0 = true ∨ ∃ spanId span, m' !! spanId = Some span ∧ is_Some (reselect span))).
  - simpl. split; [by left|]. intros [?|(k & span & H & _)]; [done|].
    by rewrite lookup_empty in H.
  - intros k span m' st Hfresh IH. rewrite filter_step_reselect.
    destruct (reselect span) as [span'|] eqn:Er; simpl.
    + split; [|done]. intros _. right. exists k, span.
      by rewrite lookup_insert_eq, Er.
    + rewrite IH. split.
      * intros [?|(j & sj & Hj & Hsome)]; [by left|]. right. exists j, sj.
        split; [|done]. rewrite lookup_insert_ne; [done|]. intros ->. congruence.
      * intros [?|(j & sj & Hj & Hsome)]; [by left|].
        destruct (decide (k = j)) as [->|Hne].
        -- rewrite lookup_insert_eq in Hj. simplify_eq. rewrite Er in Hsome.
           by destruct Hsome.
        -- rewrite lookup_insert_ne in Hj by done. right. eauto.
Qed.

(** A span after the pass: re-selected, or the one that was there. *)
Lemma content_filter_lookup (d : InteractiveDoc) (spanId : string) :
  ∃ d', content_filter (Some d) = Some d'
        ∧ tokens d' = tokens d
        ∧ spans d' !! spanId
          = (λ span, default span (reselect span)) <$> spans d !! spanId.
Proof.
  unfold content_filter, content_filter_effect, filter_update. simpl.
  destruct (map_fold filter_step (false, spans d) (spans d)).1 eqn:Ec; simpl.
  - eexists. split_and!; [done|done|]. simpl. rewrite filter_fold_spans.
    destruct (spans d !! spanId) as [span|]; simpl; [|done].
    by destruct (reselect span).
  - exists d. split_and!; [done|done|].
    destruct (spans d !! spanId) as [span|] eqn:Es; simpl; [|done].
    destruct (reselect span) as [span'|] eqn:Er; simpl; [|done].
    assert ((map_fold filter_step (false, spans d) (spans d)).1 = true) as Hc.
    { apply filter_fold_changed. right. exists spanId, span. by rewrite Er. }
    congruence.
Qed.

Lemma reselect_Some span span' :
  reselect span = Some span' ↔
  active_is_vulgar span
  ∧ ∃ i, first_non_vulgar (variants span) i
         ∧ span' = with_activeVariantIndex span (Z.of_nat i).
Proof.
  unfold reselect, active_is_vulgar, first_non_vulgar, not_vulgar. split.
  - destruct (js_index _ _) as [active|]; [|done].
    case_bool_decide as Hv; [|done].
    destruct (list_find _ (variants span)) as [[i w]|] eqn:Ef; [|done].
    intros [= <-]. split; [by exists active|]. exists i. split; [|done].
    apply list_find_Some in Ef as (Hi & Hw & Hbefore). exists w. split_and!.
    + done.
    + apply negb_true_iff, has_register_false in Hw. done.
    + intros j u Hj Hlt. specialize (Hbefore j u Hj Hlt).
      destruct (decide (v_register u = vulgar)) as [|Hne]; [done|].
      exfalso. apply Hbefore. by apply negb_true_iff, has_register_false.
  - intros [(active & Ha & Hv) (i & (w & Hi & Hw & Hbefore) & ->)].
    rewrite Ha. rewrite bool_decide_eq_true_2 by done.
    rewrite (proj2 (list_find_Some _ (variants span) i w)); [done|].
    split_and!; [done| |].
    + by apply negb_true_iff, has_register_false.
    + intros j u Hj Hlt Hu. apply negb_true_iff, has_register_false in Hu.
      apply Hu. by eapply Hbefore.
Qed.

Lemma reselect_None_all_vulgar span :
  Forall (λ v, v_register v = vulgar) (variants span) → reselect span = None.
Proof.
  intros Hall. unfold reselect.
  destruct (js_index _ _) as [active|]; [|done].
  case_bool_decide; [|done].
  rewrite (proj2 (list_find_None _ (variants span))); [done|].
  eapply Forall_impl; [exact Hall|]. simpl. intros v Hv.
  unfold not_vulgar. rewrite (proj2 (has_register_true _ _) Hv). done.
Qed.

Lemma reselect_None_not_vulgar span :
  ¬ active_is_vulgar span → reselect span = None.
Proof.
  intros Hn. unfold reselect.
  destruct (js_index _ _) as [active|] eqn:Ea; [|done].
  case_bool_decide as Hv; [|done]. destruct Hn. by exists active.
Qed.

(** A re-selected span is passed over by the next pass. *)
Lemma reselect_twice span span' : reselect span = Some span' → reselect span' = None.
Proof.
  intros H. apply reselect_Some in H as [_ (i & (w & Hi & Hw & _) & ->)].
  apply reselect_None_not_vulgar. intros (v & Hv & Hreg).
  unfold js_index in Hv. simpl in Hv.
  rewrite (proj2 (Z.ltb_ge _ _)) in Hv by lia.
  rewrite Nat2Z.id in Hv. congruence.
Qed.

Lemma filter_update_Keep (d : InteractiveDoc) :
  filter_update (Some d) = Keep
  ↔ ∀ spanId span, spans d !! spanId = Some span → reselect span = None.
Proof.
  unfold filter_update.
  destruct (map_fold filter_step (false, spans d) (spans d)).1 eqn:Ec.
  - split; [done|]. intros Hall.
    apply filter_fold_changed in Ec as [?|(k & span & Hk & Hsome)]; [done|].
    rewrite (Hall k span Hk) in Hsome. by destruct Hsome.
  - split; [|done]. intros _ spanId span Hs.
    destruct (reselect span) as [span'|] eqn:Er; [|done].
    assert ((map_fold filter_step (false, spans d) (spans d)).1 = true) as Hc.
    { apply filter_fold_changed. right. exists spanId, span. by rewrite Er. }
    congruence.
Qed.

Lemma filter_update_after_pass (st : option InteractiveDoc) :
  filter_update (content_filter st) = Keep.
Proof.
  destruct st as [d|]; [|done].
  destruct (content_filter_lookup d "") as (d' & Hd' & _ & _).
  rewrite Hd'. apply filter_update_Keep. intros spanId span' Hs'.
  destruct (content_filter_lookup d spanId) as (d'' & Hd'' & _ & Hl).
  assert (d'' = d') as -> by congruence.
  rewrite Hs' in Hl. destruct (spans d !! spanId) as [span|]; [|done].
  simpl in Hl. injection Hl as ->.
  destruct (reselect span) as [span2|] eqn:Er; simpl; [|done].
  by eapply reselect_twice.
Qed.

(** C3. The pass, applied to a document: a span whose active variant is
    vulgar and which has a variant that is not gets the index of its first
    such variant and nothing else changes in it; a span with no such variant
    is left as it is (and so is a span whose active variant is not vulgar);
    the tokens are untouched.  A second pass returns the very state it was
    given, so the pass is idempotent; and when no span is affected the first
    pass already returns the state it was given. *)
Theorem C3_content_filter_pass (d : InteractiveDoc) :
  (∃ d', content_filter (Some d) = Some d' ∧ tokens d' = tokens d
     ∧ (∀ spanId span i,
          spans d !! spanId = Some span →
          active_is_vulgar span →
          first_non_vulgar (variants span) i →
          spans d' !! spanId = Some (with_activeVariantIndex span (Z.of_nat i)))
     ∧ (∀ spanId span,
          spans d !! spanId = Some span →
          Forall (λ v, v_register v = vulgar) (variants span) →
          spans d' !! spanId = Some span)
     ∧ (∀ spanId span,
          spans d !! spanId = Some span →
          ¬ active_is_vulgar span →
          spans d' !! spanId = Some span)
     ∧ (∀ spanId, spans d !! spanId = None → spans d' !! spanId = None))
  ∧ content_filter (content_filter (Some d)) = content_filter (Some d)
  ∧ content_filter_effect true (content_filter (Some d)) = Keep
  ∧ ((∀ spanId span, spans d !! spanId = Some span →
        ¬ active_is_vulgar span
        ∨ Forall (λ v, v_register v = vulgar) (variants span)) →
     content_filter_effect true (Some d) = Keep)
  ∧ content_filter_effect true None = Keep
  ∧ content_filter_effect false (Some d) = Keep
  ∧ active_index_of (content_filter (Some doc_vulgar)) "sx" = Some 1%Z
  ∧ active_index_of (content_filter (Some doc_vulgar)) "sv" = Some 0%Z.
Proof.
  split_and!; try done.
  - destruct (content_filter_lookup d "") as (d' & Hd' & Htok & _).
    exists d'. split_and!; [done|done| | | |].
    + intros spanId span i Hs Ha Hi.
      destruct (content_filter_lookup d spanId) as (d'' & Hd'' & _ & Hl).
      assert (d'' = d') as -> by congruence. rewrite Hl, Hs. simpl.
      rewrite (proj2 (reselect_Some span (with_activeVariantIndex span (Z.of_nat i))));
        [done|]. eauto.
    + intros spanId span Hs Hall.
      destruct (content_filter_lookup d spanId) as (d'' & Hd'' & _ & Hl).
      assert (d'' = d') as -> by congruence. rewrite Hl, Hs. simpl.
      by rewrite reselect_None_all_vulgar.
    + intros spanId span Hs Hn.
      destruct (content_filter_lookup d spanId) as (d'' & Hd'' & _ & Hl).
      assert (d'' = d') as -> by congruence. rewrite Hl, Hs. simpl.
      by rewrite reselect_None_not_vulgar.
    + intros spanId Hs.
      destruct (content_filter_lookup d spanId) as (d'' & Hd'' & _ & Hl).
      assert (d'' = d') as -> by congruence. by rewrite Hl, Hs.
  - unfold content_filter at 1. simpl.
    by rewrite filter_update_after_pass.
  - simpl. apply filter_update_after_pass.
  - intros Hall. simpl. apply filter_update_Keep. intros spanId span Hs.
    destruct (Hall spanId span Hs) as [Hn|Hv].
    + by apply reselect_None_not_vulgar.
    + by apply reselect_None_all_vulgar.
Qed.

(** ** Resolving a span by its active index *)

Lemma interactive_label_contract : resolution_contract interactive_view.
Proof.
  intros d spanId. unfold contract_text. simpl. unfold interactive_label.
  destruct (spans d !! spanId) as [span|]; simpl; [|done].
  by destruct (js_index (variants span) (activeVariantIndex span)).
Qed.

Lemma practice_span_returns d spanId :
  practice_span d spanId
  = Returns (practice_text d spanId, practice_source d spanId).
Proof.
  unfold practice_span, practice_text, practice_source.
  destruct (spans d !! spanId) as [span|]; simpl; [|done].
  destruct (variants span) as [|first rest] eqn:Ev; simpl; [done|].
  by destruct (js_index (first :: rest) (activeVariantIndex span)).
Qed.

Lemma practice_span_text_returns d spanId :
  practice_span_text d spanId = Returns (practice_text d spanId).
Proof. unfold practice_span_text. by rewrite practice_span_returns. Qed.

Lemma context_span_text_returns cf d spanId :
  context_span_text cf d spanId = Returns (masked_span_text cf d spanId).
Proof.
  unfold context_span_text, masked_span_text.
  destruct (spans d !! spanId) as [span|]; simpl; [|done].
  destruct (variants span) as [|first rest]; simpl; done.
Qed.

Lemma masked_span_text_unfiltered d spanId span :
  spans d !! spanId = Some span → variants span ≠ [] →
  masked_span_text false d spanId = contract_text d spanId.
Proof.
  intros Hs Hv. unfold masked_span_text, contract_text. rewrite Hs. simpl.
  destruct (variants span) as [|first rest] eqn:Ev; [done|]. simpl.
  by destruct (js_index (first :: rest) (activeVariantIndex span)).
Qed.

Lemma practice_loop_returns d block text src :
  for_of (practice_token d) block (text, src)
  = Returns (text +:+ concat_texts (practice_token_text d <$> block),
             src +:+ concat_texts (practice_token_source d <$> block)).
Proof.
  revert text src. induction block as [|tok block IH]; intros text src; simpl.
  - by rewrite !string_app_nil_r.
  - destruct tok as [value|spanId]; simpl.
    + rewrite IH. by rewrite !string_app_assoc.
    + rewrite practice_span_returns. simpl. rewrite IH.
      by rewrite !string_app_assoc.
Qed.

Lemma array_map_returns {A B : Type} (f : A → Completion B) (g : A → B) arr :
  (∀ x, f x = Returns (g x)) → array_map f arr = Returns (g <$> arr).
Proof.
  intros Hf. induction arr as [|x arr IH]; simpl; [done|].
  by rewrite Hf, IH.
Qed.

Lemma practice_phrase_returns d lang block :
  practice_phrase d lang block = Returns (phrase_of_block d lang block).
Proof. unfold practice_phrase. by rewrite practice_loop_returns. Qed.

Lemma practice_phrases_returns (tr : StoryTranslation) (d : InteractiveDoc) :
  doc tr = Some d →
  practice_phrases (Some tr)
  = Returns (filter (λ p, phrase_text p ≠ "")
                    (phrase_of_block d (language tr) <$> split_blocks (tokens d))).
Proof.
  intros Hd. unfold practice_phrases. simpl. rewrite Hd. simpl.
  by rewrite (array_map_returns _ (phrase_of_block d (language tr)))
    by apply practice_phrase_returns.
Qed.



(** ** Flashcard derivation *)

Lemma fold_left_collect {A B : Type} (step : list B → A → list B)
    (f : A → list B) (l : list A) (acc : list B) :
  (∀ out x, step out x = out ++ f x) →
  fold_left step l acc = acc ++ (l ≫= f).
Proof.
  intros Hstep. revert acc. induction l as [|x l IH]; intros acc; simpl.
  - by rewrite app_nil_r.
  - rewrite IH, Hstep. by rewrite <- app_assoc.
Qed.

Lemma js_trim_empty s : s = "" → js_trim s = "".
Proof. by intros ->. Qed.

Lemma skipped_false cf v : skipped cf v = false ↔ emits_card cf v.
Proof.
  unfold skipped, emits_card. rewrite !orb_false_iff, andb_false_iff.
  rewrite !bool_decide_eq_false, has_register_false. split.
  - intros [[_ Ht] [Hcf|Hv]]; split; try done. by intros ->.
  - intros [Ht Hv]. split_and!; [|done|].
    + intros He. by apply Ht, js_trim_empty.
    + destruct cf; [right; by apply Hv|by left].
Qed.

Lemma variant_loop_spec cf story tr d spanId span out :
  variant_loop cf story tr d spanId span out
  = out ++ (v ← variants span;
            if decide (emits_card cf v)
            then [card_of cf story tr d spanId span v] else []).
Proof.
  unfold variant_loop. apply fold_left_collect. intros acc v.
  destruct (skipped cf v) eqn:Es.
  - rewrite decide_False; [by rewrite app_nil_r|].
    intros H. apply skipped_false in H. congruence.
  - rewrite decide_True; [done|]. by apply skipped_false.
Qed.

Lemma span_loop_spec cf story tr d out :
  span_loop cf story tr d out
  = out ++ (entry ← map_to_list (spans d);
            v ← variants entry.2;
            if decide (emits_card cf v)
            then [card_of cf story tr d entry.1 entry.2 v] else []).
Proof.
  unfold span_loop. apply fold_left_collect. intros acc entry.
  apply variant_loop_spec.
Qed.

Lemma translation_loop_spec cf story out :
  translation_loop cf story out
  = out ++ (tr ← (map_to_list (translations story)).*2;
            match doc tr with
            | None => []
            | Some d =>
                entry ← map_to_list (spans d);
                v ← variants entry.2;
                if decide (emits_card cf v)
                then [card_of cf story tr d entry.1 entry.2 v] else []
            end).
Proof.
  unfold translation_loop. apply fold_left_collect. intros acc tr.
  destruct (doc tr) as [d|]; [apply span_loop_spec|by rewrite app_nil_r].
Qed.

Lemma collect_cards_spec cf stories : collect_cards cf stories = spec_cards cf stories.
Proof.
  unfold collect_cards, spec_cards.
  rewrite (fold_left_collect _ (λ story, translation_loop cf story [])).
  - simpl. apply list_bind_ext; [|done]. intros story.
    by rewrite translation_loop_spec.
  - intros out story. by rewrite (translation_loop_spec _ _ out), translation_loop_spec.
Qed.

Section array_sort_facts.
Context {A : Type} (compareFn : A → A → Z).

Lemma sort_insert_perm x l : sort_insert compareFn x l ≡ₚ x :: l.
Proof.
  induction l as [|y l IH]; simpl; [done|].
  destruct (compareFn x y <=? 0)%Z; [done|].
  rewrite IH. apply Permutation_swap.
Qed.

Lemma array_sort_perm l : array_sort compareFn l ≡ₚ l.
Proof.
  induction l as [|x l IH]; simpl; [done|].
  by rewrite sort_insert_perm, IH.
Qed.

(** Stability: a class of elements that the comparator does not separate
    keeps its order. *)
Lemma sort_insert_filter (P : A → Prop) `{!∀ x, Decision (P x)} x l :
  (∀ y, P x → P y → (compareFn x y ≤ 0)%Z) →
  filter P (sort_insert compareFn x l) = filter P (x :: l).
Proof.
  intros Hclass. induction l as [|y l IH]; simpl; [done|].
  destruct (compareFn x y <=? 0)%Z eqn:E; [done|].
  apply Z.leb_gt in E.
  rewrite (filter_cons _ y), IH, !(filter_cons _ x), (filter_cons _ y).
  destruct (decide (P x)) as [Hx|]; [|done].
  destruct (decide (P y)) as [Hy|]; [|done].
  specialize (Hclass y Hx Hy). lia.
Qed.

Lemma array_sort_filter (P : A → Prop) `{!∀ x, Decision (P x)} l :
  (∀ x y, P x → P y → (compareFn x y ≤ 0)%Z) →
  filter P (array_sort compareFn l) = filter P l.
Proof.
  intros Hclass. induction l as [|x l IH]; simpl; [done|].
  rewrite sort_insert_filter by auto.
  by rewrite !filter_cons, IH.
Qed.

Context (Htotal : ∀ x y, (compareFn x y ≤ 0 ∨ compareFn y x ≤ 0)%Z).
Context (Htrans : ∀ x y z,
  (compareFn x y ≤ 0 → compareFn y z ≤ 0 → compareFn x z ≤ 0)%Z).

Lemma sort_insert_sorted x l :
  StronglySorted (λ a b, (compareFn a b ≤ 0)%Z) l →
  StronglySorted (λ a b, (compareFn a b ≤ 0)%Z) (sort_insert compareFn x l).
Proof.
  induction 1 as [|y l Hsorted IH Hy]; simpl.
  - by repeat constructor.
  - destruct (compareFn x y <=? 0)%Z eqn:E.
    + apply Z.leb_le in E. constructor; [by constructor|].
      constructor; [done|]. eapply Forall_impl; [exact Hy|].
      simpl. intros z Hz. by eapply Htrans.
    + apply Z.leb_gt in E. constructor; [done|].
      rewrite sort_insert_perm. constructor; [|done].
      destruct (Htotal x y); [lia|done].
Qed.

Lemma array_sort_sorted l :
  StronglySorted (λ a b, (compareFn a b ≤ 0)%Z) (array_sort compareFn l).
Proof.
  induction l as [|x l IH]; simpl; [constructor|].
  by apply sort_insert_sorted.
Qed.

Lemma same_rank_refl x : same_rank compareFn x x.
Proof. split; by destruct (Htotal x x). Qed.

Lemma array_sort_stable l x :
  filter (same_rank compareFn x) (array_sort compareFn l)
  = filter (same_rank compareFn x) l.
Proof.
  apply array_sort_filter. intros a b [_ Hax] [Hxb _]. by eapply Htrans.
Qed.

(** Two sorted arrangements that keep the order inside every rank are the
    same list. *)
Lemma sorted_stable_unique l1 l2 :
  StronglySorted (λ a b, (compareFn a b ≤ 0)%Z) l1 →
  StronglySorted (λ a b, (compareFn a b ≤ 0)%Z) l2 →
  (∀ x, filter (same_rank compareFn x) l1 = filter (same_rank compareFn x) l2) →
  l1 = l2.
Proof.
  intros Hs1. revert l2. induction Hs1 as [|x t1 Hs1 IH Hx]; intros l2 Hs2 Hf.
  - destruct l2 as [|y t2]; [done|]. specialize (Hf y).
    rewrite filter_cons, decide_True in Hf by apply same_rank_refl. done.
  - destruct Hs2 as [|y t2 Hs2 Hy].
    { specialize (Hf x).
      rewrite filter_cons, decide_True in Hf by apply same_rank_refl. done. }
    assert (same_rank compareFn x y) as Hxy.
    { split.
      - assert (y ∈ x :: t1) as Hin.
        { apply (list_elem_of_filter (same_rank compareFn y)). rewrite (Hf y).
          rewrite filter_cons, decide_True by apply same_rank_refl. by left. }
        apply elem_of_cons in Hin as [->|Hin]; [by destruct (Htotal x x)|].
        by apply (proj1 (Forall_forall _ _) Hx).
      - assert (x ∈ y :: t2) as Hin.
        { apply (list_elem_of_filter (same_rank compareFn x)). rewrite <- (Hf x).
          rewrite filter_cons, decide_True by apply same_rank_refl. by left. }
        apply elem_of_cons in Hin as [->|Hin]; [by destruct (Htotal y y)|].
        by apply (proj1 (Forall_forall _ _) Hy). }
    assert (x = y) as <-.
    { pose proof (Hf x) as Hfx.
      rewrite !filter_cons, (decide_True _ _ Hxy) in Hfx.
      rewrite decide_True in Hfx by apply same_rank_refl. congruence. }
    f_equal. apply IH; [done|]. intros z. specialize (Hf z).
    rewrite !filter_cons in Hf. destruct (decide _); congruence.
Qed.

Lemma array_sort_unique l l' :
  StronglySorted (λ a b, (compareFn a b ≤ 0)%Z) l' →
  (∀ x, filter (same_rank compareFn x) l' = filter (same_rank compareFn x) l) →
  l' = array_sort compareFn l.
Proof.
  intros Hs Hf. apply sorted_stable_unique; [done|apply array_sort_sorted|].
  intros x. by rewrite array_sort_stable.
Qed.
End array_sort_facts.

Lemma StronglySorted_lookup {A : Type} (R : A → A → Prop) (l : list A) i j a b :
  StronglySorted R l → l !! i = Some a → l !! j = Some b → (i < j)%nat → R a b.
Proof.
  intros Hs. revert i j. induction Hs as [|x l Hs IH Hx]; intros i j Hi Hj Hlt.
  - by rewrite lookup_nil in Hi.
  - destruct j as [|j]; [lia|]. simpl in Hj. destruct i as [|i]; simpl in Hi.
    + injection Hi as ->. eapply (proj1 (Forall_forall _ _) Hx).
      by eapply list_elem_of_lookup_2.
    + eapply (IH i j); [done|done|lia].
Qed.

Lemma StronglySorted_impl {A : Type} (R1 R2 : A → A → Prop) (l : list A) :
  (∀ a b, R1 a b → R2 a b) → StronglySorted R1 l → StronglySorted R2 l.
Proof.
  intros HR. induction 1 as [|x l Hs IH Hx]; constructor; [done|].
  eapply Forall_impl; [exact Hx|]. simpl. auto.
Qed.

Section card_order.
Context (localeCompare : string → string → Z).
Context (Hcollation : Collation localeCompare).

Local Abbreviation lc := localeCompare.

Lemma collate_lt_trans a b c : (lc a b < 0 → lc b c < 0 → lc a c < 0)%Z.
Proof.
  intros Hab Hbc.
  assert (lc a c ≤ 0)%Z as Hle
    by (eapply (collate_trans _ Hcollation a b c); lia).
  destruct (decide (lc a c = 0%Z)) as [E|]; [|lia].
  apply (collate_eq _ Hcollation) in E as ->.
  apply (collate_antisym _ Hcollation) in Hab. lia.
Qed.

Lemma collate_le_lt a b : (lc a b ≤ 0)%Z → a ≠ b → (lc a b < 0)%Z.
Proof.
  intros Hle Hne. destruct (decide (lc a b = 0%Z)) as [E|]; [|lia].
  by apply (collate_eq _ Hcollation) in E.
Qed.

Lemma collate_total a b : (lc a b ≤ 0 ∨ lc b a ≤ 0)%Z.
Proof.
  destruct (Z_le_gt_dec (lc a b) 0) as [|Hgt]; [by left|right].
  assert (lc b a < 0)%Z; [|lia]. apply (collate_antisym _ Hcollation). lia.
Qed.

Lemma compare_cards_le a b :
  (compare_cards lc a b ≤ 0)%Z ↔ card_le lc a b.
Proof.
  unfold compare_cards, card_le.
  destruct (decide (storyTitle a = storyTitle b)) as [Et|Et].
  - rewrite (bool_decide_eq_true_2 _ Et). simpl.
    destruct (decide (card_language a = card_language b)) as [El|El].
    + rewrite (bool_decide_eq_true_2 _ El). simpl. split; [by auto|].
      intros [Hlt|[_ [Hlt|[_ Hle]]]]; [| |done].
      * rewrite Et, (collate_refl _ Hcollation) in Hlt. lia.
      * rewrite El, (collate_refl _ Hcollation) in Hlt. lia.
    + rewrite (bool_decide_eq_false_2 _ El). simpl. split.
      * intros Hle. right. split; [done|]. left. by apply collate_le_lt.
      * intros [Hlt|[_ [Hlt|[? _]]]]; [|lia|done].
        rewrite Et, (collate_refl _ Hcollation) in Hlt. lia.
  - rewrite (bool_decide_eq_false_2 _ Et). simpl. split.
    + intros Hle. left. by apply collate_le_lt.
    + intros [Hlt|[? _]]; [lia|done].
Qed.

Lemma card_le_total a b : card_le lc a b ∨ card_le lc b a.
Proof.
  unfold card_le.
  destruct (decide (storyTitle a = storyTitle b)) as [Et|Et].
  - destruct (decide (card_language a = card_language b)) as [El|El].
    + destruct (collate_total (card_sourceText a) (card_sourceText b));
        [left|right]; right; split; auto.
    + destruct (collate_total (card_language a) (card_language b)) as [H|H];
        [left|right]; right; (split; [done|]); left;
        apply collate_le_lt; auto.
  - destruct (collate_total (storyTitle a) (storyTitle b)) as [H|H];
      [left|right]; left; apply collate_le_lt; auto.
Qed.

Lemma card_le_trans a b c : card_le lc a b → card_le lc b c → card_le lc a c.
Proof.
  unfold card_le.
  intros [Hab|[Etab Hab]] [Hbc|[Etbc Hbc]].
  - left. by eapply collate_lt_trans.
  - left. by rewrite <- Etbc.
  - left. by rewrite Etab.
  - right. split; [congruence|].
    destruct Hab as [Hab|[Elab Hab]], Hbc as [Hbc|[Elbc Hbc]].
    + left. by eapply collate_lt_trans.
    + left. by rewrite <- Elbc.
    + left. by rewrite Elab.
    + right. split; [congruence|].
      by eapply (collate_trans _ Hcollation).
Qed.

Lemma card_le_antisym a b : card_le lc a b → card_le lc b a → same_keys a b.
Proof.
  unfold card_le, same_keys.
  intros [Hab|[Et Hab]] [Hba|[Et' Hba]].
  - apply (collate_antisym _ Hcollation) in Hab. lia.
  - rewrite Et', (collate_refl _ Hcollation) in Hab. lia.
  - rewrite Et, (collate_refl _ Hcollation) in Hba. lia.
  - split; [done|].
    destruct Hab as [Hab|[El Hab]], Hba as [Hba|[El' Hba]].
    + apply (collate_antisym _ Hcollation) in Hab. lia.
    + rewrite El', (collate_refl _ Hcollation) in Hab. lia.
    + rewrite El, (collate_refl _ Hcollation) in Hba. lia.
    + split; [done|].
      destruct (decide (card_sourceText a = card_sourceText b)) as [|Hne];
        [done|].
      pose proof (collate_le_lt _ _ Hab Hne) as Hlt.
      apply (collate_antisym _ Hcollation) in Hlt. lia.
Qed.

Lemma same_keys_compare c x y :
  same_keys c x → same_keys c y → (compare_cards lc x y ≤ 0)%Z.
Proof.
  intros (Ht & Hl & Hs) (Ht' & Hl' & Hs'). apply compare_cards_le.
  right. split; [congruence|]. right. split; [congruence|].
  rewrite <- Hs, <- Hs', (collate_refl _ Hcollation). done.
Qed.

Lemma allCards_sorted cf stories :
  StronglySorted (card_le lc) (allCards lc cf stories).
Proof.
  unfold allCards.
  eapply (StronglySorted_impl (λ a b, (compare_cards lc a b ≤ 0)%Z)).
  - intros a b. apply compare_cards_le.
  - apply array_sort_sorted.
    + intros x y. rewrite !compare_cards_le. apply card_le_total.
    + intros x y z. rewrite !compare_cards_le. apply card_le_trans.
Qed.
End card_order.

Lemma emits_card_filtered v :
  emits_card true v ↔ emits_card false v ∧ v_register v ≠ vulgar.
Proof.
  unfold emits_card. split.
  - intros [Ht Hv]. split_and!; [done|done|by apply Hv].
  - intros [[Ht _] Hv]. by split.
Qed.

(** Identities of the cards of [l] that are not vulgar. *)
Lemma kept_ids_bind {A : Type} (f g : A → list Flashcard) (l : list A) :
  (∀ x, card_id <$> f x
        = card_id <$> filter (λ c, register c ≠ vulgar) (g x)) →
  card_id <$> (l ≫= f)
  = card_id <$> filter (λ c, register c ≠ vulgar) (l ≫= g).
Proof.
  intros Hfg. induction l as [|x l IH]; [done|].
  rewrite !bind_cons, filter_app, !fmap_app. by rewrite IH, Hfg.
Qed.

Lemma spec_cards_filtered_ids stories :
  card_id <$> spec_cards true stories
  = card_id <$> filter (λ c, register c ≠ vulgar) (spec_cards false stories).
Proof.
  unfold spec_cards. apply kept_ids_bind. intros story.
  apply kept_ids_bind. intros tr. destruct (doc tr) as [d|]; [|done].
  apply kept_ids_bind. intros entry. apply kept_ids_bind. intros v.
  destruct (decide (emits_card true v)) as [Ht|Ht].
  - apply emits_card_filtered in Ht as [Hf Hv].
    rewrite (decide_True _ _ Hf). rewrite filter_cons. simpl.
    by rewrite decide_True.
  - destruct (decide (emits_card false v)) as [Hf|Hf]; [|done].
    rewrite filter_cons. simpl. rewrite decide_False; [done|].
    intros Hv. apply Ht, emits_card_filtered. done.
Qed.

Lemma spec_cards_id cf stories c :
  c ∈ spec_cards cf stories →
  card_id c = storyId c +:+ ":" +:+ card_language c +:+ ":" +:+ card_spanId c
              +:+ ":" +:+ variantId c.
Proof.
  unfold spec_cards. intros H.
  apply list_elem_of_bind in H as (story & H & _).
  apply list_elem_of_bind in H as (tr & H & _).
  destruct (doc tr) as [d|]; [|by apply elem_of_nil in H].
  apply list_elem_of_bind in H as (entry & H & _).
  apply list_elem_of_bind in H as (v & H & _).
  destruct (decide (emits_card cf v)); [|by apply elem_of_nil in H].
  apply list_elem_of_singleton in H as ->. done.
Qed.

Lemma allCards_perm localeCompare cf stories :
  allCards localeCompare cf stories ≡ₚ spec_cards cf stories.
Proof. unfold allCards. by rewrite array_sort_perm, collect_cards_spec. Qed.


(** ** Order of the cards *)

Lemma code_unit_compare_le a b : (code_unit_compare a b ≤ 0)%Z ↔ String.le a b.
Proof.
  unfold code_unit_compare, String.le, String.leb.
  destruct (String.compare a b); simpl; split; (done || lia).
Qed.

Lemma string_compare_refl (a : string) : String.compare a a = Eq.
Proof.
  induction a as [|c a IH]; simpl; [done|].
  unfold Ascii.compare. by rewrite N.compare_refl.
Qed.

Lemma code_unit_collation : Collation code_unit_compare.
Proof.
  split.
  - intros a. unfold code_unit_compare. by rewrite string_compare_refl.
  - intros a b. unfold code_unit_compare.
    destruct (String.compare a b) eqn:E; try done.
    intros _. by apply String.compare_eq_iff.
  - intros a b. unfold code_unit_compare.
    rewrite (String.compare_antisym a b).
    destruct (String.compare b a); simpl; lia.
  - intros a b c. rewrite !code_unit_compare_le. apply transitivity.
Qed.



(** ** The mock translation driver *)

Lemma pop_earliest_sorted t rest :
  StronglySorted (λ a b, (delay a < delay b)%Z) (t :: rest) →
  pop_earliest (t :: rest) = Some (t, rest).
Proof.
  revert t. induction rest as [|u rest IH]; intros t Hs; [done|].
  apply StronglySorted_inv in Hs as [Hrest Ht].
  change (pop_earliest (t :: u :: rest))
    with (match pop_earliest (u :: rest) with
          | None => Some (t, [])
          | Some (v, rest') =>
              if (delay v <? delay t)%Z then Some (v, t :: rest')
              else Some (t, u :: rest)
          end).
  rewrite (IH u Hrest). apply Forall_cons in Ht as [Htu _].
  by rewrite (proj2 (Z.ltb_ge _ _)) by lia.
Qed.

Lemma pending_timers_sorted k n :
  (k ≤ n)%nat →
  StronglySorted (λ a b, (delay a < delay b)%Z) (pending_timers k n).
Proof.
  unfold pending_timers. intros Hk.
  remember (n - k)%nat as m eqn:Hm. revert k Hk Hm.
  induction m as [|m IH]; intros k Hk Hm; simpl.
  - repeat constructor.
  - constructor.
    + apply (IH (S k)); lia.
    + apply Forall_app. split.
      * apply Forall_fmap, Forall_seq. intros i Hi. simpl. lia.
      * repeat constructor. simpl. lia.
Qed.

Lemma pending_timers_step k n :
  (k < n)%nat →
  pending_timers k n
  = mkTimer (500 + Z.of_nat k * 650)%Z (BaseReady k) :: pending_timers (S k) n.
Proof.
  intros Hk. unfold pending_timers.
  replace (n - k)%nat with (S (n - S k)) by lia. done.
Qed.

Lemma pending_timers_last n :
  pending_timers n n = [mkTimer (500 + Z.of_nat n * 650 + 600)%Z Finish].
Proof. unfold pending_timers. by rewrite Nat.sub_diag. Qed.

Lemma mock_timers_pending n : mock_timers n = pending_timers 0 n.
Proof. unfold mock_timers, pending_timers. by rewrite Nat.sub_0_r. Qed.

Lemma jobs_of_snoc tr item :
  jobs_of (tr ++ [item])
  = jobs_of tr ++ match item with Called (OnJob j) => [j] | _ => [] end.
Proof. unfold jobs_of. rewrite bind_app. simpl. by rewrite app_nil_r. Qed.

Lemma running_job_not_ready k n j :
  (0 < n)%nat → running_job k n j → ready_is_conjunction j.
Proof.
  intros Hn (Hr & Hlen & Hsegs). unfold ready_is_conjunction. rewrite Hr.
  split; [done|]. intros Hall. exfalso.
  destruct (segments j) as [|seg rest] eqn:E; [simpl in Hlen; lia|].
  apply Forall_cons in Hall as [[_ Hspan] _].
  destruct (Hsegs 0%nat seg eq_refl) as [Hp _]. congruence.
Qed.

Lemma mark_base_ready_running k n j :
  running_job k n j → running_job (S k) n (mark_base_ready k j).
Proof.
  intros (Hr & Hlen & Hsegs). split_and!; simpl.
  - done.
  - by rewrite length_alter.
  - intros i seg Hi. destruct (decide (i = k)) as [->|Hne].
    + rewrite list_lookup_alter_eq in Hi.
      destruct (segments j !! k) as [seg0|] eqn:H0; [|done].
      simpl in Hi. injection Hi as <-. simpl. split; [|done].
      by destruct (Hsegs k seg0 H0).
    + rewrite list_lookup_alter_ne in Hi by done.
      destruct (Hsegs i seg Hi) as [Hp Hb]. split; [done|].
      intros Hlt. apply Hb. lia.
Qed.

Lemma mark_all_ready_conjunction n j :
  running_job n n j → ready_is_conjunction (mark_all_ready j).
Proof.
  intros (Hr & Hlen & Hsegs). unfold ready_is_conjunction. simpl.
  split; [|done]. intros _. apply Forall_fmap, Forall_lookup.
  intros i seg Hi. split; simpl; [|done].
  apply (Hsegs i seg Hi). apply lookup_lt_Some in Hi. lia.
Qed.

Lemma initial_segments_lookup seg_texts i seg :
  initial_segments seg_texts !! i = Some seg →
  baseStage seg = pending ∧ spanStage seg = pending.
Proof.
  unfold initial_segments. rewrite list_lookup_imap.
  destruct (seg_texts !! i); simpl; [|done]. by intros [= <-].
Qed.

Lemma split_into_segments_nonempty text :
  js_trim text ≠ "" → split_into_segments text ≠ [].
Proof.
  intros Ht. unfold split_into_segments.
  rewrite bool_decide_eq_false_2 by done.
  case_bool_decide as Hlen; [|done].
  intros E. rewrite E in Hlen. simpl in Hlen. lia.
Qed.

Section mock_run_facts.
Context (build_doc : TranslationJob → InteractiveDoc).
Context (onJob_cancels : TranslationJob → bool).

Lemma mock_invariant_start now storyText :
  js_trim storyText ≠ "" →
  mock_invariant (length (split_into_segments storyText))
                 (start_mock_translation now storyText).
Proof.
  intros Ht.
  assert (0 < length (split_into_segments storyText))%nat as Hn.
  { pose proof (split_into_segments_nonempty _ Ht).
    destruct (split_into_segments storyText); [done|simpl; lia]. }
  assert (length (initial_segments (split_into_segments storyText))
          = length (split_into_segments storyText)) as Hlen
    by apply length_imap.
  assert (running_job 0 (length (split_into_segments storyText))
            (mkJob ("job-" +:+ pretty now)
                   (initial_segments (split_into_segments storyText)) false))
    as Hrun.
  { split_and!; [done|done|]. simpl. intros i seg Hi.
    apply initial_segments_lookup in Hi as [_ Hp]. split; [done|lia]. }
  split.
  - unfold start_mock_translation. simpl. apply Forall_singleton.
    by eapply running_job_not_ready.
  - right. exists 0%nat. split_and!; [lia| |done|done].
    unfold start_mock_translation. simpl. by rewrite Hlen, mock_timers_pending.
Qed.

Lemma mock_invariant_cancel n st :
  mock_invariant n st → mock_invariant n (cancel st).
Proof.
  intros [Hjobs _]. split; [|by left].
  unfold cancel. simpl. by rewrite jobs_of_snoc, app_nil_r.
Qed.

(** A job update of a request that is not cancelled: the job is handed to
    [onJob], and the caller may cancel on it. *)
Lemma mock_invariant_update n st mut rest :
  cancelled st = false →
  Forall ready_is_conjunction (jobs_of (trace st)) →
  ready_is_conjunction (mut (cur_job st)) →
  mock_invariant n (mkMock (mut (cur_job st)) false rest
                           (trace st ++ [Called (OnJob (mut (cur_job st)))])) →
  mock_invariant n
    (update_job onJob_cancels mut
                (mkMock (cur_job st) (cancelled st) rest (trace st))).
Proof.
  intros Hc Hjobs Hready Hnext. unfold update_job. simpl. rewrite Hc.
  destruct (onJob_cancels _); [by apply mock_invariant_cancel|done].
Qed.

Lemma mock_invariant_step n st s :
  (0 < n)%nat → mock_invariant n st →
  mock_invariant n (step build_doc onJob_cancels st s).
Proof.
  intros Hn Hinv. destruct s; simpl; [|by apply mock_invariant_cancel].
  destruct Hinv as [Hjobs Hphase]. unfold fire.
  destruct Hphase as [Hnil|(k & Hk & Htim & Hc & Hrun)].
  { rewrite Hnil. simpl. split; [done|by left]. }
  rewrite Htim.
  pose proof (pending_timers_sorted k n Hk) as Hsorted.
  destruct (decide (k < n)%nat) as [Hlt|Hge].
  - rewrite pending_timers_step in Hsorted |- * by done.
    rewrite (pop_earliest_sorted _ _ Hsorted). simpl.
    pose proof (mark_base_ready_running _ _ _ Hrun) as Hrun'.
    assert (ready_is_conjunction (mark_base_ready k (cur_job st))) as Hready
      by by eapply running_job_not_ready.
    apply mock_invariant_update; [done|done|done|]. split; simpl.
    + rewrite jobs_of_snoc. apply Forall_app. split; [done|].
      by apply Forall_singleton.
    + right. exists (S k). split_and!; [lia|done|done|done].
  - assert (k = n) as -> by lia. rewrite pending_timers_last. simpl.
    pose proof (mark_all_ready_conjunction _ _ Hrun) as Hready.
    assert (mock_invariant n
              (update_job onJob_cancels mark_all_ready
                 (mkMock (cur_job st) (cancelled st) [] (trace st))))
      as [Hjobs' _].
    { apply mock_invariant_update; [done|done|done|]. split; simpl.
      - rewrite jobs_of_snoc. apply Forall_app. split; [done|].
        by apply Forall_singleton.
      - by left. }
    split; simpl.
    + by rewrite jobs_of_snoc, app_nil_r.
    + left. unfold update_job. simpl. rewrite Hc.
      by destruct (onJob_cancels _).
Qed.

Lemma mock_invariant_run n steps st :
  (0 < n)%nat → mock_invariant n st →
  mock_invariant n (run build_doc onJob_cancels steps st).
Proof.
  intros Hn. revert st. induction steps as [|s steps IH]; intros st Hst.
  - done.
  - simpl. apply IH. by apply mock_invariant_step.
Qed.
End mock_run_facts.




(** ** Cancellation *)

Section cancel_facts.
Context (build_doc : TranslationJob → InteractiveDoc).
Context (onJob_cancels : TranslationJob → bool).

(** Once the request is cancelled and its timers are cleared, nothing is
    invoked any more. *)
Lemma cancelled_step_silent st s :
  timers st = [] →
  timers (step build_doc onJob_cancels st s) = []
  ∧ (trace (step build_doc onJob_cancels st s) = trace st
     ∨ trace (step build_doc onJob_cancels st s) = trace st ++ [CancelCalled]).
Proof.
  intros Hnil. destruct s; simpl.
  - unfold fire. rewrite Hnil. simpl. by auto.
  - by auto.
Qed.

Lemma cancelled_run_silent steps st :
  timers st = [] →
  ∃ more, trace (run build_doc onJob_cancels steps st) = trace st ++ more
          ∧ Forall (λ item, item = CancelCalled) more.
Proof.
  revert st. induction steps as [|s steps IH]; intros st Hnil; simpl.
  - exists []. by rewrite app_nil_r.
  - destruct (cancelled_step_silent st s Hnil) as [Hnil' Htr].
    destruct (IH _ Hnil') as (more & Hmore & Hall). destruct Htr as [E|E].
    + exists more. by rewrite Hmore, E.
    + exists (CancelCalled :: more). rewrite Hmore, E, <- app_assoc.
      split; [done|]. by constructor.
Qed.

(** A cancellation from outside a callback silences the request. *)
Lemma cancel_between_timers_silences steps st :
  ∃ more, trace (run build_doc onJob_cancels (Cancel :: steps) st)
          = trace st ++ CancelCalled :: more
          ∧ Forall (λ item, item = CancelCalled) more.
Proof.
  simpl. destruct (cancelled_run_silent steps (cancel st) eq_refl)
    as (more & Hmore & Hall).
  exists more. split; [|done]. rewrite Hmore. simpl. by rewrite <- app_assoc.
Qed.
End cancel_facts.

(** A trace made of callbacks first and of cancellations only afterwards is
    silent after its first cancellation. *)
Lemma silent_after_cancel_shape (pre post : list TraceItem) :
  CancelCalled ∉ pre → Forall (λ item, item = CancelCalled) post →
  silent_after_cancel (pre ++ post).
Proof.
  intros Hpre Hpost before after E. apply Forall_lookup. intros i item Hi.
  assert ((pre ++ post) !! (length before + S i)%nat = Some item) as Hitem.
  { rewrite E. rewrite lookup_app_r by lia.
    replace (length before + S i - length before)%nat with (S i) by lia. done. }
  assert ((pre ++ post) !! length before = Some CancelCalled) as Hc.
  { rewrite E. rewrite lookup_app_r by lia. by rewrite Nat.sub_diag. }
  destruct (decide (length before < length pre)%nat) as [Hlt|Hge].
  - rewrite lookup_app_l in Hc by done. destruct Hpre.
    by eapply list_elem_of_lookup_2.
  - rewrite lookup_app_r in Hitem by lia.
    by eapply (proj1 (Forall_lookup _ _) Hpost).
Qed.

(** With a caller that does not cancel from inside [onJob], every run is
    silent after [cancel()]: what C9 says holds for cancellations made
    between timer callbacks. *)
Lemma cancel_outside_callbacks_silent
    (build_doc : TranslationJob → InteractiveDoc) (now : Z)
    (storyText : string) (steps : list Step) :
  silent_after_cancel
    (trace (run build_doc never_cancels steps
                (start_mock_translation now storyText))).
Proof.
  assert (∀ st,
    (∃ pre post, trace st = pre ++ post ∧ (CancelCalled ∉ pre)
                 ∧ Forall (λ item, item = CancelCalled) post
                 ∧ (post ≠ [] → timers st = [])) →
    ∃ pre post,
      trace (run build_doc never_cancels steps st) = pre ++ post
      ∧ (CancelCalled ∉ pre) ∧ Forall (λ item, item = CancelCalled) post
      ∧ (post ≠ [] → timers (run build_doc never_cancels steps st) = []))
    as Hrun.
  { induction steps as [|s steps IH]; intros st Hst; [done|].
    simpl. apply IH. destruct Hst as (pre & post & Htr & Hpre & Hpost & Htim).
    destruct s; simpl.
    - unfold fire. destruct (pop_earliest (timers st)) as [[t rest]|] eqn:Ep.
      + assert (post = []) as ->.
        { destruct post; [done|]. rewrite Htim in Ep by done. done. }
        rewrite app_nil_r in Htr.
        destruct (action t); simpl; unfold update_job; simpl;
          destruct (cancelled st); simpl; rewrite Htr.
        * exists pre, []. by rewrite app_nil_r.
        * exists (pre ++ [Called (OnJob (mark_base_ready i (cur_job st)))]), [].
          rewrite app_nil_r. split_and!; [done| |done|done].
          rewrite elem_of_app, list_elem_of_singleton. by intros [?|?].
        * exists (pre ++ [Called (OnDoc (Some (build_doc (cur_job st))))]), [].
          rewrite app_nil_r. split_and!; [done| |done|done].
          rewrite elem_of_app, list_elem_of_singleton. by intros [?|?].
        * exists ((pre ++ [Called (OnJob (mark_all_ready (cur_job st)))])
                  ++ [Called (OnDoc (Some (build_doc (mark_all_ready (cur_job st)))))]), [].
          rewrite app_nil_r. split_and!; [done| |done|done].
          rewrite !elem_of_app, !list_elem_of_singleton. by intros [[?|?]|?].
      + by exists pre, post.
    - exists pre, (post ++ [CancelCalled]). split_and!.
      + by rewrite Htr, app_assoc.
      + done.
      + apply Forall_app. split; [done|]. by apply Forall_singleton.
      + done. }
  destruct (Hrun (start_mock_translation now storyText)) as (pre & post & -> & Hpre & Hpost & _).
  - exists [Called (OnDoc None);
            Called (OnJob (cur_job (start_mock_translation now storyText)))], [].
    split_and!; [done| |done|done].
    rewrite !elem_of_cons, elem_of_nil. by intros [?|[?|?]].
  - by apply silent_after_cancel_shape.
Qed.

(** C9, at the failing input.  The caller cancels from its [onJob] callback
    when it is given the ready job: the last timer callback then goes on and
    hands the document to [onDoc], after the cancellation. *)
Theorem C9_document_after_cancel (build_doc : TranslationJob → InteractiveDoc) :
  ∃ before j,
    trace (run build_doc cancels_when_ready [Fire; Fire]
               (start_mock_translation 0 "Hi."))
    = before ++ [Called (OnJob j); CancelCalled;
                 Called (OnDoc (Some (build_doc j)))]
    ∧ ready j = true
    ∧ cancelled (run build_doc cancels_when_ready [Fire; Fire]
                     (start_mock_translation 0 "Hi.")) = true
    ∧ ¬ silent_after_cancel
          (trace (run build_doc cancels_when_ready [Fire; Fire]
                      (start_mock_translation 0 "Hi."))).
Proof.
  eexists [_; _; _], _. split_and!.
  - vm_compute. reflexivity.
  - reflexivity.
  - reflexivity.
  - intros H.
    specialize (H [_; _; _; _] [_] eq_refl).
    apply Forall_cons in H as [H _]. discriminate H.
Qed.

(** ** The model at work *)

Example split_blocks_example :
  split_blocks [TokText "a"; TokText block_separator; TokSpan "s";
                TokText block_separator]
  = [[TokText "a"]; [TokSpan "s"]; []].
Proof. reflexivity. Qed.

Example js_trim_example : js_trim "  two words   " = "two words".
Proof. reflexivity. Qed.

Example split_into_segments_example :
  split_into_segments "  Hi there.  How are you? Fine!  "
  = ["Hi there."; "How are you?"; "Fine!"].
Proof. reflexivity. Qed.

Example split_into_segments_no_end :
  split_into_segments "no end" = ["no end"].
Proof. reflexivity. Qed.

Example split_into_segments_blank : split_into_segments "   " = [].
Proof. reflexivity. Qed.

Example mock_timers_example :
  delay <$> mock_timers 2 = [500; 1150; 2400]%Z.
Proof. reflexivity. Qed.

Example masked_context_example :
  buildMaskedContext true doc_sx "sx" = Some "It is ____."
  ∧ buildMaskedContext true doc_vulgar "sv" = Some "ok ____"
  ∧ buildMaskedContext false doc_vulgar "sv" = Some "x! ____"
  ∧ buildMaskedContext true doc_sx "missing" = None.
Proof. by vm_compute. Qed.

Example practice_phrases_example :
  practice_phrases (Some (mkTranslation "fr" 0%Z None (Some doc_sx) None))
  = Returns [mkPhrase "It is ok." "It is fine." "fr"].
Proof. by vm_compute. Qed.

Example cancel_between_timers_example :
  trace (run empty_doc never_cancels [Fire; Cancel; Fire; Fire]
             (start_mock_translation 0 "Hi. Yo."))
  = trace (run empty_doc never_cancels [Fire; Cancel]
               (start_mock_translation 0 "Hi. Yo.")).
Proof. by vm_compute. Qed.

(** * Further properties of the code *)

(** ** The application shell *)

Lemma menu_items_elem cf span v idx :
  (v, idx) ∈ menu_items cf span ↔
  variants span !! idx = Some v ∧ (cf = true → v_register v ≠ vulgar).
Proof.
  unfold menu_items. rewrite list_elem_of_filter. simpl.
  rewrite list_elem_of_lookup. split.
  - intros [Hreg [k Hk]]. rewrite list_lookup_imap in Hk.
    destruct (variants span !! k) as [w|] eqn:Ew; simplify_eq/=. done.
  - intros [Hv Hreg]. split; [done|]. exists idx.
    rewrite list_lookup_imap, Hv. done.
Qed.

Lemma js_index_of_nat {A : Type} (arr : list A) (i : nat) :
  js_index arr (Z.of_nat i) = arr !! i.
Proof.
  unfold js_index. rewrite (proj2 (Z.ltb_ge _ _)) by lia. by rewrite Nat2Z.id.
Qed.

(** X1. Choosing an entry of the variant menu of a displayed span puts that
    variant on display: the label of the span becomes the text of the entry,
    the active index of the span is within its variants, the tokens and the
    other spans are untouched, and when the menu was built under the content
    filter the re-selection pass has nothing to change on that span. *)
Theorem X1_menu_choice_is_displayed (cf : bool) (sid lang : option string)
    (clock : Z) (spanId : string) (s : AppState) (d : InteractiveDoc)
    (span : Span) (v : Variant) (idx : nat) :
  app_doc s = Some d →
  spans d !! spanId = Some span →
  (v, idx) ∈ menu_items cf span →
  ∃ d' span',
    app_doc (app_onSetActiveVariant sid lang clock spanId (Z.of_nat idx) s)
    = Some d'
    ∧ tokens d' = tokens d
    ∧ spans d' !! spanId = Some span'
    ∧ (∀ other, other ≠ spanId → spans d' !! other = spans d !! other)
    ∧ index_in_range span'
    ∧ interactive_label d' spanId = Returns (v_text v)
    ∧ (cf = true → reselect span' = None).
Proof.
  intros Hd Hs Hitem. apply menu_items_elem in Hitem as [Hv Hreg].
  unfold app_onSetActiveVariant, set_variant_doc. rewrite Hd, Hs.
  exists (mkDoc (tokens d)
            (<[spanId := with_activeVariantIndex span (Z.of_nat idx)]> (spans d))),
         (with_activeVariantIndex span (Z.of_nat idx)).
  split_and!; [done|done|apply lookup_insert_eq| | | |].
  - intros other Hne. simpl. by rewrite lookup_insert_ne.
  - unfold index_in_range. simpl. apply lookup_lt_Some in Hv. lia.
  - unfold interactive_label. simpl. rewrite lookup_insert_eq. simpl.
    by rewrite js_index_of_nat, Hv.
  - intros Hcf. apply reselect_None_not_vulgar. intros (w & Hw & Hvul).
    simpl in Hw. rewrite js_index_of_nat, Hv in Hw. injection Hw as <-.
    by apply Hreg.
Qed.

Lemma X1_menu_choice_is_displayed_witness :
  ∃ d' span',
    app_doc (app_onSetActiveVariant (Some "st") (Some "fr") 7%Z "sx" 1%Z
               (mkApp (Some doc_vulgar) None None [story_sx]))
    = Some d'
    ∧ tokens d' = tokens doc_vulgar
    ∧ spans d' !! "sx" = Some span'
    ∧ (∀ other, other ≠ "sx" → spans d' !! other = spans doc_vulgar !! other)
    ∧ index_in_range span'
    ∧ interactive_label d' "sx" = Returns "ok"
    ∧ (true = true → reselect span' = None).
Proof.
  apply (X1_menu_choice_is_displayed true (Some "st") (Some "fr") 7%Z "sx"
           (mkApp (Some doc_vulgar) None None [story_sx]) doc_vulgar
           (mkSpan "sx" "x"
              [ mkVariant "sx-vulgar" vulgar "x!" None None;
                mkVariant "sx-neutral" neutral "ok" None None ] 0%Z)
           (mkVariant "sx-neutral" neutral "ok" None None) 1).
  - reflexivity.
  - reflexivity.
  - apply menu_items_elem. split; [reflexivity|]. intros _. discriminate.
Defined.

Lemma app_onDoc_doc storyId language created clock incoming s :
  app_doc (app_onDoc storyId language created clock incoming s)
  = onDoc (app_doc s) incoming.
Proof. unfold app_onDoc. by destruct (app_doc s). Qed.

Lemma app_onSetActiveVariant_doc sid lang clock spanId variantIndex s :
  app_doc (app_onSetActiveVariant sid lang clock spanId variantIndex s)
  = apply_update (app_doc s) (set_variant_doc spanId variantIndex (app_doc s)).
Proof.
  unfold app_onSetActiveVariant.
  by destruct (set_variant_doc spanId variantIndex (app_doc s)).
Qed.

(** X2. A selection made through [onSetActiveVariant] survives a document
    that arrives afterwards through the translation callbacks: if the span is
    in the displayed document and in the incoming one, its active index after
    the arrival is the one the user chose, whatever index the incoming copy
    carries. *)
Theorem X2_selection_survives_arrival (sid lang : option string)
    (storyId language : string) (created clock clock' : Z)
    (spanId : string) (variantIndex : Z) (s : AppState)
    (d incoming : InteractiveDoc) (span nextSpan : Span) :
  app_doc s = Some d →
  spans d !! spanId = Some span →
  spans incoming !! spanId = Some nextSpan →
  active_index_of
    (app_doc (app_onDoc storyId language created clock' incoming
                (app_onSetActiveVariant sid lang clock spanId variantIndex s)))
    spanId
  = Some variantIndex.
Proof.
  intros Hd Hs Hi.
  rewrite app_onDoc_doc, app_onSetActiveVariant_doc, Hd.
  unfold set_variant_doc. rewrite Hs. unfold onDoc, active_index_of.
  cbn [apply_update onDoc_update mbind option_bind].
  rewrite merge_doc_lookup, Hi. cbn [spans]. by rewrite lookup_insert_eq.
Qed.

Lemma X2_selection_survives_arrival_witness :
  active_index_of
    (app_doc (app_onDoc "st" "fr" 0%Z 9%Z doc_backend
                (app_onSetActiveVariant (Some "st") (Some "fr") 7%Z "s1" 1%Z
                   (mkApp (Some doc_user) None None []))))
    "s1"
  = Some 1%Z.
Proof.
  apply (X2_selection_survives_arrival (Some "st") (Some "fr") "st" "fr"
           0%Z 7%Z 9%Z "s1" 1%Z (mkApp (Some doc_user) None None [])
           doc_user doc_backend
           (mkSpan "s1" "world" (sample_variants "s1" "monde") 2%Z)
           (mkSpan "s1" "world" (sample_variants "s1" "monde") 0%Z));
    reflexivity.
Defined.

Lemma map_story_lookup storyId f stories k :
  map_story storyId f stories !! k
  = (λ st, if bool_decide (story_id st ≠ storyId) then st else f st)
      <$> stories !! k.
Proof. unfold map_story. apply list_lookup_fmap. Qed.

Lemma put_translation_stored clock lang t st l :
  stored_doc l (put_translation clock lang t st)
  = if bool_decide (lang = l) then doc t else stored_doc l st.
Proof.
  unfold stored_doc, put_translation. simpl. case_bool_decide as E.
  - subst. by rewrite lookup_insert_eq.
  - by rewrite lookup_insert_ne.
Qed.

(** X3. What a document from the translation callbacks does to the stored
    stories.  With a document on display, every story with the identity of
    the request stores, for the language of the request, exactly the merged
    document now on display, and the other stories are untouched.  With no
    document on display, the incoming document is put on display and the
    stories are left exactly as they were: it is stored nowhere. *)
Theorem X3_arrival_and_stored_document (storyId language : string)
    (created clock : Z) (incoming : InteractiveDoc) (s : AppState) :
  (∀ prev, app_doc s = Some prev →
     app_doc (app_onDoc storyId language created clock incoming s)
     = Some (merge_doc prev incoming)
     ∧ ∀ k st, app_stories s !! k = Some st →
         ∃ st', app_stories (app_onDoc storyId language created clock incoming s)
                  !! k = Some st'
                ∧ story_id st' = story_id st
                ∧ (story_id st = storyId →
                     stored_doc language st' = Some (merge_doc prev incoming))
                ∧ (story_id st ≠ storyId → st' = st))
  ∧ (app_doc s = None →
     app_doc (app_onDoc storyId language created clock incoming s) = Some incoming
     ∧ app_stories (app_onDoc storyId language created clock incoming s)
       = app_stories s).
Proof.
  split.
  - intros prev Hd. unfold app_onDoc. rewrite Hd. simpl. split; [done|].
    intros k st Hk. rewrite map_story_lookup, Hk. simpl.
    eexists. split; [done|]. case_bool_decide as Hid.
    + split_and!; [done|done|done].
    + split_and!; [done| |done]. intros _.
      rewrite put_translation_stored. by rewrite bool_decide_eq_true_2.
  - intros Hd. unfold app_onDoc. by rewrite Hd.
Qed.

(** X4. Job updates and error messages never touch a document: the document
    on display stays, and every stored story keeps its place, its identity
    and, for every language, its stored document; translations in other
    languages than the one of the request are left as they are. *)
Theorem X4_jobs_and_errors_keep_documents (storyId language : string)
    (created clock : Z) (incoming : TranslationJob) (message : string)
    (s : AppState) :
  let after_job := app_onJob storyId language created clock incoming s in
  let after_error := app_onError storyId language created clock message s in
  app_doc after_job = app_doc s
  ∧ app_doc after_error = app_doc s
  ∧ app_job after_job = Some incoming
  ∧ app_error after_error = Some message
  ∧ ∀ k st, app_stories s !! k = Some st →
      ∃ st1 st2,
        app_stories after_job !! k = Some st1
        ∧ app_stories after_error !! k = Some st2
        ∧ story_id st1 = story_id st ∧ story_id st2 = story_id st
        ∧ (∀ l, stored_doc l st1 = stored_doc l st
                ∧ stored_doc l st2 = stored_doc l st)
        ∧ (∀ l, l ≠ language →
                translations st1 !! l = translations st !! l
                ∧ translations st2 !! l = translations st !! l).
Proof.
  simpl. split_and!; [done..|].
  intros k st Hk. unfold app_onJob, app_onError. simpl.
  rewrite !map_story_lookup, Hk. simpl. eexists _, _.
  split; [done|]. split; [done|].
  case_bool_decide as Hid.
  { split; [done|]. split; [done|]. split; by intros. }
  split; [done|]. split; [done|]. split.
  - intros l. rewrite !put_translation_stored. case_bool_decide as El; [|done].
    subst l. unfold stored_doc, job_translation, error_translation. simpl.
    by destruct (translations st !! language).
  - intros l Hl. simpl. by rewrite !lookup_insert_ne.
Qed.

(** ** Decks and sessions *)

Lemma StronglySorted_filter {A : Type} (R : A → A → Prop) (P : A → Prop)
    `{!∀ x, Decision (P x)} (l : list A) :
  StronglySorted R l → StronglySorted R (filter P l).
Proof.
  induction 1 as [|x l Hs IH Hx]; [constructor|].
  rewrite filter_cons. destruct (decide (P x)); [|done].
  constructor; [done|]. apply Forall_forall. intros y Hy.
  apply list_elem_of_filter in Hy as [_ Hy].
  by apply (proj1 (Forall_forall _ _) Hx).
Qed.



(** X6. The active view and the deleted view split the filtered deck: every
    card of the deck is in exactly one of them, so together they hold the
    cards of the deck, and the first number of the counter is the size of the
    active view. *)
Theorem X6_active_and_deleted_split_the_deck (filtered : list Flashcard)
    (deletedIds : gset string) :
  visibleCards filtered deletedIds false ++ visibleCards filtered deletedIds true
  ≡ₚ filtered
  ∧ (∀ c, c ∈ filtered →
       (c ∈ visibleCards filtered deletedIds false
        ∧ c ∉ visibleCards filtered deletedIds true)
       ∨ (c ∈ visibleCards filtered deletedIds true
          ∧ c ∉ visibleCards filtered deletedIds false))
  ∧ deck_counter filtered deletedIds
    = (length (visibleCards filtered deletedIds false), length filtered)
  ∧ visibleCards filtered ∅ false = filtered
  ∧ visibleCards filtered ∅ true = [].
Proof.
  unfold visibleCards, deck_counter. split_and!.
  - rewrite Permutation_app_comm.
    rewrite <- (filter_app_complement (λ c, card_id c ∈ deletedIds) filtered) at 3.
    done.
  - intros c Hc. rewrite !list_elem_of_filter.
    destruct (decide (card_id c ∈ deletedIds)) as [Hin|Hout]; [right|left].
    + split; [done|]. by intros [Hno _].
    + split; [done|]. by intros [Hyes _].
  - done.
  - induction filtered as [|c l IH]; [done|].
    rewrite filter_cons, decide_True by set_solver. by rewrite IH.
  - induction filtered as [|c l IH]; [done|].
    rewrite filter_cons, decide_False by set_solver. done.
Qed.

Lemma exchange_perm {A : Type} (i j : nat) (next : list A) :
  (i < length next)%nat → (j ≤ i)%nat →
  ∃ next', exchange i j next = Some next' ∧ next' ≡ₚ next
           ∧ length next' = length next.
Proof.
  intros Hi Hj. unfold exchange.
  destruct (lookup_lt_is_Some_2 next i Hi) as [x Hx].
  destruct (lookup_lt_is_Some_2 next j) as [y Hy]; [lia|].
  rewrite Hx, Hy. simpl. eexists. split; [done|]. split.
  - by apply Permutation_insert_swap.
  - by rewrite !length_insert.
Qed.

Lemma shuffle_down_perm {A : Type} (pick : nat → nat) (i : nat) (next : list A) :
  (∀ k, pick k ≤ k)%nat → (i < length next ∨ i = 0)%nat →
  ∃ result, shuffle_down pick i next = Some result ∧ result ≡ₚ next.
Proof.
  intros Hpick. revert next. induction i as [|i IH]; intros next Hi; simpl.
  - by exists next.
  - destruct (exchange_perm (S i) (pick (S i)) next) as (next' & -> & Hp & Hl);
      [lia|apply Hpick|].
    simpl. destruct (IH next') as (result & -> & Hr); [lia|].
    exists result. split; [done|]. by rewrite Hr.
Qed.

(** X7. Whatever the random draws, as long as each draw for position [i] is
    at most [i], [shuffle] returns a rearrangement of its argument: the same
    elements, each as often as before. *)
Theorem X7_shuffle_rearranges {A : Type} (pick : nat → nat) (items : list A) :
  (∀ i, pick i ≤ i)%nat →
  ∃ result, shuffle pick items = Some result ∧ result ≡ₚ items
            ∧ length result = length items.
Proof.
  intros Hpick.
  destruct (shuffle_down_perm pick (length items - 1) items Hpick)
    as (result & Hr & Hp).
  { destruct items; simpl; lia. }
  exists result. split_and!; [done|done|]. by rewrite Hp.
Qed.

Lemma X7_shuffle_rearranges_witness :
  ∃ result, shuffle (λ i, i - 1)%nat ["a"; "b"; "c"; "d"] = Some result
            ∧ result ≡ₚ ["a"; "b"; "c"; "d"]
            ∧ length result = length ["a"; "b"; "c"; "d"].
Proof.
  apply (X7_shuffle_rearranges (λ i, i - 1)%nat ["a"; "b"; "c"; "d"]).
  intros i. lia.
Defined.

Lemma visibleById_fold_absent (l : list Flashcard) (m : gmap string Flashcard) id :
  id ∉ card_id <$> l →
  fold_left (λ m c, <[card_id c := c]> m) l m !! id = m !! id.
Proof.
  revert m. induction l as [|x l IH]; intros m Hid; simpl; [done|].
  rewrite fmap_cons, not_elem_of_cons in Hid. destruct Hid as [Hne Hid].
  rewrite IH by done. by rewrite lookup_insert_ne.
Qed.

Lemma visibleById_fold_Some (l : list Flashcard) (m : gmap string Flashcard) id c :
  fold_left (λ m c, <[card_id c := c]> m) l m !! id = Some c →
  (c ∈ l ∧ card_id c = id) ∨ m !! id = Some c.
Proof.
  revert m. induction l as [|x l IH]; intros m H; simpl in *; [by right|].
  apply IH in H as [[Hin Hid]|H].
  - left. split; [by right|done].
  - destruct (decide (card_id x = id)) as [E|E].
    + rewrite <- E, lookup_insert_eq in H. injection H as ->.
      left. split; [by left|done].
    + rewrite lookup_insert_ne in H by done. by right.
Qed.

Lemma visibleById_lookup_elem visible id c :
  visibleById visible !! id = Some c → c ∈ visible ∧ card_id c = id.
Proof.
  intros H. apply visibleById_fold_Some in H as [?|H]; [done|].
  by rewrite lookup_empty in H.
Qed.

Lemma visibleById_lookup_NoDup visible c :
  NoDup (card_id <$> visible) → c ∈ visible →
  visibleById visible !! card_id c = Some c.
Proof.
  unfold visibleById. generalize (∅ : gmap string Flashcard).
  induction visible as [|x l IH]; intros m Hnd Hin; [by apply elem_of_nil in Hin|].
  rewrite fmap_cons in Hnd. apply NoDup_cons in Hnd as [Hx Hnd].
  simpl. apply elem_of_cons in Hin as [->|Hin].
  - rewrite visibleById_fold_absent by done. apply lookup_insert_eq.
  - by apply IH.
Qed.

Lemma sessionCards_bind visible order :
  sessionCards true (Some order) visible
  = order ≫= λ id, match visibleById visible !! id with
                   | Some c => [c]
                   | None => []
                   end.
Proof.
  unfold sessionCards. simpl.
  rewrite (fold_left_collect _
             (λ id, match visibleById visible !! id with
                    | Some c => [c]
                    | None => []
                    end)); [done|].
  intros out id. destruct (visibleById visible !! id); [done|].
  by rewrite app_nil_r.
Qed.

Lemma bind_ids_cards (visible l : list Flashcard) :
  NoDup (card_id <$> visible) → l ⊆ visible →
  (card_id <$> l) ≫= (λ id, match visibleById visible !! id with
                            | Some c => [c]
                            | None => []
                            end)
  = l.
Proof.
  intros Hnd. induction l as [|c l IH]; intros Hsub; [done|].
  rewrite fmap_cons, bind_cons.
  rewrite visibleById_lookup_NoDup; [|done|apply Hsub; by left].
  simpl. f_equal. apply IH. intros x Hx. apply Hsub. by right.
Qed.

(** X8. A session over cards with pairwise distinct identities, started with
    an order that rearranges their identities, shows every visible card
    exactly once, in that order. *)
Theorem X8_session_shows_each_card_once (visible : list Flashcard)
    (order : list string) :
  NoDup (card_id <$> visible) →
  order ≡ₚ card_id <$> visible →
  card_id <$> sessionCards true (Some order) visible = order
  ∧ sessionCards true (Some order) visible ≡ₚ visible.
Proof.
  intros Hnd Hp. rewrite sessionCards_bind. split.
  - assert (∀ id, id ∈ order → id ∈ card_id <$> visible) as Hsub
      by (intros id; by rewrite Hp).
    clear Hp. induction order as [|id order IH]; [done|].
    rewrite bind_cons, fmap_app, IH by (intros x Hx; apply Hsub; by right).
    assert (id ∈ card_id <$> visible) as Hin by (apply Hsub; by left).
    apply list_elem_of_fmap in Hin as (c & -> & Hc).
    by rewrite visibleById_lookup_NoDup.
  - rewrite Hp. by rewrite bind_ids_cards.
Qed.

Lemma X8_session_shows_each_card_once_witness :
  card_id <$> sessionCards true
                (Some ["a:fr:sx:sx-vulgar"; "a:fr:sx:sx-neutral";
                       "b:fr:sx:sx-neutral"; "b:fr:sx:sx-vulgar"])
                (allCards code_unit_compare false [story_bravo; story_alpha])
  = ["a:fr:sx:sx-vulgar"; "a:fr:sx:sx-neutral";
     "b:fr:sx:sx-neutral"; "b:fr:sx:sx-vulgar"]
  ∧ sessionCards true
      (Some ["a:fr:sx:sx-vulgar"; "a:fr:sx:sx-neutral";
             "b:fr:sx:sx-neutral"; "b:fr:sx:sx-vulgar"])
      (allCards code_unit_compare false [story_bravo; story_alpha])
    ≡ₚ allCards code_unit_compare false [story_bravo; story_alpha].
Proof.
  apply (X8_session_shows_each_card_once
           (allCards code_unit_compare false [story_bravo; story_alpha])
           ["a:fr:sx:sx-vulgar"; "a:fr:sx:sx-neutral";
            "b:fr:sx:sx-neutral"; "b:fr:sx:sx-vulgar"]).
  - apply (bool_decide_unpack _). vm_compute. reflexivity.
  - vm_compute. apply perm_swap.
Defined.

(** X9. A session never shows a card that is not visible, whatever order it
    was started with: identities of cards deleted or filtered away since are
    passed over.  Outside session mode, or without an order, the session is
    the visible list itself.  For a cursor that is not negative and a session
    that is not empty, a card of the session is under the cursor, the card at
    the cursor while the cursor is within the session. *)
Theorem X9_session_stays_within_visible (visible : list Flashcard)
    (order : option (list string)) (sessionMode : bool) (cursor : Z) :
  (∀ c, c ∈ sessionCards sessionMode order visible → c ∈ visible)
  ∧ sessionCards false order visible = visible
  ∧ sessionCards sessionMode None visible = visible
  ∧ active_card [] cursor = None
  ∧ ((0 ≤ cursor)%Z → sessionCards sessionMode order visible ≠ [] →
     ∃ c, active_card (sessionCards sessionMode order visible) cursor = Some c
          ∧ c ∈ sessionCards sessionMode order visible)
  ∧ ((0 ≤ cursor < Z.of_nat (length (sessionCards sessionMode order visible)))%Z →
     active_card (sessionCards sessionMode order visible) cursor
     = sessionCards sessionMode order visible !! Z.to_nat cursor).
Proof.
  split_and!.
  - intros c. destruct sessionMode; [|done]. destruct order as [order|]; [|done].
    rewrite sessionCards_bind. intros Hc.
    apply list_elem_of_bind in Hc as (id & Hc & _).
    destruct (visibleById visible !! id) as [c'|] eqn:E;
      [|by apply elem_of_nil in Hc].
    apply list_elem_of_singleton in Hc as ->.
    by apply visibleById_lookup_elem in E as [? _].
  - done.
  - by destruct sessionMode.
  - done.
  - intros Hcur Hne. unfold active_card.
    set (session := sessionCards sessionMode order visible) in *.
    assert (0 < length session)%nat as Hlen by (destruct session; simpl; [done|lia]).
    rewrite bool_decide_eq_true_2 by done.
    pose proof (Z.rem_bound_pos cursor (Z.of_nat (length session))) as Hb.
    unfold js_index. rewrite (proj2 (Z.ltb_ge _ _)) by lia.
    destruct (lookup_lt_is_Some_2 session
                (Z.to_nat (Z.rem cursor (Z.of_nat (length session)))))
      as [c Hc]; [lia|].
    exists c. split; [done|]. by eapply list_elem_of_lookup_2.
  - intros Hcur. unfold active_card.
    set (session := sessionCards sessionMode order visible) in *.
    rewrite bool_decide_eq_true_2 by lia.
    rewrite Z.rem_small by lia.
    unfold js_index. by rewrite (proj2 (Z.ltb_ge _ _)) by lia.
Qed.

(** ** Masked contexts *)

Lemma blocks_from_elem cur toks x :
  x ∈ cur ++ toks ↔
  (∃ b, b ∈ blocks_from cur toks ∧ x ∈ b) ∨ (is_separator x = true ∧ x ∈ toks).
Proof.
  revert cur. induction toks as [|tok rest IH]; intros cur; simpl.
  - rewrite app_nil_r. split.
    + intros Hx. left. exists cur. split; [by left|done].
    + intros [(b & Hb & Hx)|[_ Hx]]; [|by apply elem_of_nil in Hx].
      by apply list_elem_of_singleton in Hb as ->.
  - destruct (is_separator tok) eqn:E.
    + specialize (IH []). simpl in IH. split.
      * intros Hx. apply elem_of_app in Hx as [Hx|Hx].
        { left. exists cur. split; [by left|done]. }
        apply elem_of_cons in Hx as [->|Hx].
        { right. split; [done|by left]. }
        apply IH in Hx as [(b & Hb & Hx)|[Hs Hx]].
        -- left. exists b. split; [by right|done].
        -- right. split; [done|by right].
      * intros [(b & Hb & Hx)|[Hs Hx]].
        -- apply elem_of_cons in Hb as [->|Hb].
           { apply elem_of_app. by left. }
           apply elem_of_app. right. right. apply IH. left. by exists b.
        -- apply elem_of_app. right. done.
    + assert (cur ++ tok :: rest = (cur ++ [tok]) ++ rest) as Happ
        by by rewrite <- app_assoc.
      rewrite Happ. split.
      * intros Hx. apply IH in Hx as [Hx|[Hs Hx]]; [by left|].
        right. split; [done|by right].
      * intros [Hx|[Hs Hx]].
        -- apply IH. by left.
        -- rewrite <- Happ. apply elem_of_app. by right.
Qed.

Lemma split_blocks_elem toks x :
  is_separator x = false →
  x ∈ toks ↔ ∃ b, b ∈ split_blocks toks ∧ x ∈ b.
Proof.
  intros Hx. rewrite split_blocks_from.
  rewrite <- (app_nil_l toks) at 1. rewrite blocks_from_elem. split.
  - intros [?|[Hs _]]; [done|congruence].
  - by left.
Qed.

Lemma mentions_true target block :
  mentions target block = true ↔ TokSpan target ∈ block.
Proof.
  unfold mentions. rewrite bool_decide_eq_true, Exists_exists. split.
  - by intros (t & Ht & ->).
  - intros H. by exists (TokSpan target).
Qed.

(** X10. A masked context exists exactly for the spans that the tokens of the
    document mention: [buildMaskedContext] returns nothing if and only if no
    token of the document refers to the target span, whether or not the span
    map has an entry for it. *)
Theorem X10_masked_context_exists_iff_mentioned (cf : bool) (d : InteractiveDoc)
    (targetSpanId : string) :
  buildMaskedContext cf d targetSpanId = None
  ↔ TokSpan targetSpanId ∉ tokens d.
Proof.
  unfold buildMaskedContext.
  destruct (array_find (mentions targetSpanId) (split_blocks (tokens d)))
    as [block|] eqn:E.
  - split; [done|]. intros Hno. exfalso. apply Hno.
    apply array_find_Some in E as (pre & post & Hsplit & Hm & _).
    apply (split_blocks_elem (tokens d) (TokSpan targetSpanId) eq_refl).
    exists block. split.
    + rewrite Hsplit. apply elem_of_app. right. by left.
    + by apply mentions_true.
  - split; [|done]. intros _ Hin.
    apply (split_blocks_elem (tokens d) (TokSpan targetSpanId) eq_refl)
      in Hin as (b & Hb & Hin).
    apply array_find_None in E.
    pose proof (proj1 (Forall_forall _ _) E b Hb) as Hfalse. simpl in Hfalse.
    apply mentions_true in Hin. congruence.
Qed.

Lemma masked_span_text_reselect (span : Span) (d d' : InteractiveDoc) spanId :
  spans d !! spanId = Some span →
  spans d' !! spanId = Some (default span (reselect span)) →
  masked_span_text true d spanId = masked_span_text false d' spanId.
Proof.
  intros Hs Hs'. unfold masked_span_text. rewrite Hs, Hs'.
  assert (variants (default span (reselect span)) = variants span) as Hv.
  { unfold reselect. destruct (js_index _ _); [|done].
    case_bool_decide; [|done]. by destruct (list_find _ _) as [[i w]|]. }
  assert (sourceText (default span (reselect span)) = sourceText span) as Hsrc.
  { unfold reselect. destruct (js_index _ _); [|done].
    case_bool_decide; [|done]. by destruct (list_find _ _) as [[i w]|]. }
  rewrite Hv, Hsrc. case_bool_decide as Hlen; [done|]. simpl.
  do 2 f_equal. f_equal.
  unfold reselect, array_findIndex.
  destruct (js_index (variants span) (activeVariantIndex span)) as [active|] eqn:Ea;
    simpl; [|done].
  destruct (decide (v_register active = vulgar)) as [Hvul|Hvul].
  - rewrite (bool_decide_eq_true_2 (Some (v_register active) = Some vulgar))
      by congruence.
    rewrite (bool_decide_eq_true_2 _ Hvul).
    destruct (list_find _ (variants span)) as [[i w]|]; simpl; [|done].
    by rewrite (proj2 (Z.leb_le _ _)) by lia.
  - rewrite (bool_decide_eq_false_2 (Some (v_register active) = Some vulgar))
      by congruence.
    by rewrite (bool_decide_eq_false_2 _ Hvul).
Qed.

(** X11. The masked context built under the content filter is the masked
    context built without it on the document that the content-filter pass
    produces: substituting the first variant that is not vulgar while
    rendering, and re-selecting it in the document first, show the same
    text. *)
Theorem X11_masked_context_under_filter (d : InteractiveDoc)
    (targetSpanId : string) :
  ∃ d', content_filter (Some d) = Some d'
        ∧ buildMaskedContext true d targetSpanId
          = buildMaskedContext false d' targetSpanId.
Proof.
  destruct (content_filter_lookup d "") as (d' & Hd' & Htok & _).
  exists d'. split; [done|]. unfold buildMaskedContext. rewrite Htok.
  destruct (array_find _ _) as [block|]; [|done]. f_equal.
  generalize "". induction block as [|tok block IH]; intros acc; [done|].
  simpl. rewrite IH. do 2 f_equal.
  destruct tok as [value|spanId]; simpl; [done|].
  case_bool_decide; [done|].
  destruct (content_filter_lookup d spanId) as (d'' & Hd'' & _ & Hl).
  assert (d'' = d') as -> by congruence.
  destruct (spans d !! spanId) as [span|] eqn:Es; simpl in Hl.
  - by apply (masked_span_text_reselect span).
  - unfold masked_span_text. by rewrite Es, Hl.
Qed.

(** ** Segments of a story text *)

Lemma chars_rev_app (s1 s2 : string) :
  String.list_ascii_of_string (String.rev_app s1 s2)
  = rev (String.list_ascii_of_string s1) ++ String.list_ascii_of_string s2.
Proof.
  revert s2. induction s1 as [|c s1 IH]; intros s2; simpl; [done|].
  rewrite IH. simpl. by rewrite <- app_assoc.
Qed.

Lemma chars_rev (s : string) :
  String.list_ascii_of_string (String.rev s) = rev (String.list_ascii_of_string s).
Proof. unfold String.rev. rewrite chars_rev_app. simpl. by rewrite app_nil_r. Qed.

Lemma chars_trim_start (s : string) :
  String.list_ascii_of_string (trim_start s) = drop_white (String.list_ascii_of_string s).
Proof.
  induction s as [|c s IH]; simpl; [done|]. by destruct (is_white_space c).
Qed.

Lemma chars_js_trim (s : string) :
  String.list_ascii_of_string (js_trim s)
  = rev (drop_white (rev (drop_white (String.list_ascii_of_string s)))).
Proof.
  unfold js_trim. by rewrite chars_rev, chars_trim_start, chars_rev, chars_trim_start.
Qed.

Lemma chars_inj (s1 s2 : string) :
  String.list_ascii_of_string s1 = String.list_ascii_of_string s2 → s1 = s2.
Proof.
  intros H. rewrite <- (String.string_of_list_ascii_of_string s1),
    <- (String.string_of_list_ascii_of_string s2). by rewrite H.
Qed.

Lemma drop_white_idem l : drop_white (drop_white l) = drop_white l.
Proof.
  induction l as [|c l IH]; simpl; [done|].
  destruct (is_white_space c) eqn:E; [done|]. simpl. by rewrite E.
Qed.

Lemma drop_white_snoc l c :
  is_white_space c = false → drop_white (l ++ [c]) = drop_white l ++ [c].
Proof.
  intros Hc. induction l as [|x l IH]; simpl; [by rewrite Hc|].
  by destruct (is_white_space x).
Qed.

Lemma drop_white_head l :
  match drop_white l with
  | [] => True
  | c :: _ => is_white_space c = false
  end.
Proof.
  induction l as [|c l IH]; simpl; [done|].
  destruct (is_white_space c) eqn:E; [done|]. done.
Qed.

Lemma list_trim_idem l :
  let trim := λ l, rev (drop_white (rev (drop_white l))) in
  trim (trim l) = trim l.
Proof.
  intros trim. subst trim. cbv beta. pose proof (drop_white_head l) as Hhead.
  destruct (drop_white l) as [|c L] eqn:EL; [done|].
  assert (rev (drop_white (rev (c :: L))) = c :: rev (drop_white (rev L)))
    as Hone.
  { change (rev (c :: L)) with (rev L ++ [c]).
    rewrite drop_white_snoc by done. by rewrite rev_app_distr. }
  rewrite Hone.
  change (drop_white (c :: rev (drop_white (rev L))))
    with (if is_white_space c then drop_white (rev (drop_white (rev L)))
          else c :: rev (drop_white (rev L))).
  rewrite Hhead.
  change (rev (c :: rev (drop_white (rev L))))
    with (rev (rev (drop_white (rev L))) ++ [c]).
  rewrite rev_involutive, drop_white_snoc by done.
  by rewrite drop_white_idem, rev_app_distr.
Qed.

Lemma js_trim_idem (s : string) : js_trim (js_trim s) = js_trim s.
Proof.
  apply chars_inj. rewrite (chars_js_trim (js_trim s)), !chars_js_trim.
  apply list_trim_idem.
Qed.


(** ** The stream of jobs of a request *)

Lemma segment_progress_refl seg : segment_progress seg seg.
Proof. by repeat split. Qed.

Lemma segment_progress_trans s1 s2 s3 :
  segment_progress s1 s2 → segment_progress s2 s3 → segment_progress s1 s3.
Proof.
  intros (Hi & Hs & Hb & Hp) (Hi' & Hs' & Hb' & Hp').
  split_and!; [congruence|congruence|auto|auto].
Qed.

Lemma job_progress_refl j : job_progress j j.
Proof.
  split_and!; [done| |done]. apply Forall2_same_length_lookup.
  split; [done|]. intros i x y Hx Hy. simplify_eq. apply segment_progress_refl.
Qed.

Lemma job_progress_trans j1 j2 j3 :
  job_progress j1 j2 → job_progress j2 j3 → job_progress j1 j3.
Proof.
  intros (Hi & Hs & Hr) (Hi' & Hs' & Hr'). split_and!; [congruence| |auto].
  eapply Forall2_trans; [|exact Hs|exact Hs'].
  intros x y z. apply segment_progress_trans.
Qed.

Lemma mark_base_ready_progress i j : job_progress j (mark_base_ready i j).
Proof.
  split_and!; [done| |done]. simpl. apply Forall2_same_length_lookup.
  split; [by rewrite length_alter|]. intros k x y Hx Hy.
  destruct (decide (i = k)) as [->|Hne].
  - rewrite list_lookup_alter_eq, Hx in Hy. simpl in Hy. injection Hy as <-.
    by repeat split.
  - rewrite list_lookup_alter_ne in Hy by done. simplify_eq.
    apply segment_progress_refl.
Qed.

Lemma mark_all_ready_progress j : job_progress j (mark_all_ready j).
Proof.
  split_and!; [done| |done]. simpl. apply Forall2_fmap_r, Forall2_same_length_lookup.
  split; [done|]. intros k x y Hx Hy. simplify_eq. by repeat split.
Qed.

Section job_stream.
Context (build_doc : TranslationJob → InteractiveDoc).
Context (onJob_cancels : TranslationJob → bool).

Lemma job_stream_update mut st :
  (∀ j, job_progress j (mut j)) →
  StronglySorted job_progress (jobs_of (trace st))
  ∧ Forall (λ j, job_progress j (cur_job st)) (jobs_of (trace st)) →
  StronglySorted job_progress (jobs_of (trace (update_job onJob_cancels mut st)))
  ∧ Forall (λ j, job_progress j (cur_job (update_job onJob_cancels mut st)))
           (jobs_of (trace (update_job onJob_cancels mut st))).
Proof.
  intros Hmut [Hs Hcur]. unfold update_job.
  destruct (cancelled st); [done|].
  assert (StronglySorted job_progress
            (jobs_of (trace st) ++ [mut (cur_job st)])
          ∧ Forall (λ j, job_progress j (mut (cur_job st)))
                   (jobs_of (trace st) ++ [mut (cur_job st)])) as [Hs' Hcur'].
  { assert (Forall (λ j, job_progress j (mut (cur_job st))) (jobs_of (trace st)))
      as Hall.
    { eapply Forall_impl; [exact Hcur|]. simpl. intros j Hj.
      eapply job_progress_trans; [exact Hj|apply Hmut]. }
    split.
    - apply StronglySorted_app_2; [|done|repeat constructor].
      intros x1 x2 Hx1 Hx2. apply list_elem_of_singleton in Hx2 as ->.
      by apply (proj1 (Forall_forall _ _) Hall).
    - apply Forall_app. split; [done|]. apply Forall_singleton.
      apply job_progress_refl. }
  destruct (onJob_cancels _); simpl.
  - by rewrite !jobs_of_snoc, app_nil_r.
  - by rewrite jobs_of_snoc.
Qed.

Lemma job_stream_step st s :
  StronglySorted job_progress (jobs_of (trace st))
  ∧ Forall (λ j, job_progress j (cur_job st)) (jobs_of (trace st)) →
  StronglySorted job_progress
    (jobs_of (trace (step build_doc onJob_cancels st s)))
  ∧ Forall (λ j, job_progress j (cur_job (step build_doc onJob_cancels st s)))
           (jobs_of (trace (step build_doc onJob_cancels st s))).
Proof.
  intros Hinv. destruct s; simpl.
  - unfold fire. destruct (pop_earliest (timers st)) as [[t rest]|]; [|done].
    destruct (action t) as [i|]; simpl.
    + apply job_stream_update; [apply mark_base_ready_progress|done].
    + rewrite jobs_of_snoc, app_nil_r.
      apply job_stream_update; [apply mark_all_ready_progress|done].
  - unfold cancel. simpl. by rewrite jobs_of_snoc, app_nil_r.
Qed.

Lemma job_stream_run steps st :
  StronglySorted job_progress (jobs_of (trace st))
  ∧ Forall (λ j, job_progress j (cur_job st)) (jobs_of (trace st)) →
  StronglySorted job_progress
    (jobs_of (trace (run build_doc onJob_cancels steps st))).
Proof.
  revert st. induction steps as [|s steps IH]; intros st Hinv; [by destruct Hinv|].
  simpl. apply IH. by apply job_stream_step.
Qed.
End job_stream.

(** X13. The jobs handed to [onJob] in the course of a request never go
    back: of two jobs, the later one has the same job identity, the same
    segments with the same identities and sources in the same order, every
    stage that was ready still ready, and is ready if the earlier one was. *)
Theorem X13_jobs_never_go_back (build_doc : TranslationJob → InteractiveDoc)
    (onJob_cancels : TranslationJob → bool) (now : Z) (storyText : string)
    (steps : list Step) (i k : nat) (j j' : TranslationJob) :
  (i ≤ k)%nat →
  jobs_of (trace (run build_doc onJob_cancels steps
                      (start_mock_translation now storyText))) !! i = Some j →
  jobs_of (trace (run build_doc onJob_cancels steps
                      (start_mock_translation now storyText))) !! k = Some j' →
  job_progress j j'.
Proof.
  intros Hik Hi Hk.
  destruct (decide (i = k)) as [->|Hne].
  { assert (j = j') as -> by congruence. apply job_progress_refl. }
  eapply (StronglySorted_lookup job_progress _ i k); [|done|done|lia].
  apply job_stream_run. unfold start_mock_translation. simpl. split.
  - repeat constructor.
  - apply Forall_singleton. apply job_progress_refl.
Qed.

Lemma X13_jobs_never_go_back_witness :
  job_progress
    (mkJob "job-0"
       [mkSegment "seg-1" "Hi." None pending pending 0%Z;
        mkSegment "seg-2" "Yo." None pending pending 0%Z] false)
    (mkJob "job-0"
       [mkSegment "seg-1" "Hi." (Some "«Hi.»") stage_ready stage_ready 6%Z;
        mkSegment "seg-2" "Yo." (Some "«Yo.»") stage_ready stage_ready 6%Z] true).
Proof.
  apply (X13_jobs_never_go_back empty_doc never_cancels 0%Z "Hi. Yo."
           [Fire; Fire; Fire] 0 3).
  - lia.
  - vm_compute. reflexivity.
  - vm_compute. reflexivity.
Defined.

(** ** The documents of a request *)

Lemma docs_of_snoc tr item :
  docs_of (tr ++ [item])
  = docs_of tr ++ match item with Called (OnDoc d) => [d] | _ => [] end.
Proof. unfold docs_of. rewrite bind_app. simpl. by rewrite app_nil_r. Qed.

Lemma pop_pending_base k n :
  (k < n)%nat →
  pop_earliest (pending_timers k n)
  = Some (mkTimer (500 + Z.of_nat k * 650)%Z (BaseReady k),
          pending_timers (S k) n).
Proof.
  intros Hk. pose proof (pending_timers_sorted k n ltac:(lia)) as Hs.
  rewrite pending_timers_step in Hs |- * by done.
  by apply pop_earliest_sorted.
Qed.

Lemma pop_pending_last n :
  pop_earliest (pending_timers n n)
  = Some (mkTimer (500 + Z.of_nat n * 650 + 600)%Z Finish, []).
Proof. by rewrite pending_timers_last. Qed.

Section documents.
Context (build_doc : TranslationJob → InteractiveDoc).
Context (onJob_cancels : TranslationJob → bool).

Lemma doc_invariant_step n st s :
  doc_invariant build_doc n st →
  doc_invariant build_doc n (step build_doc onJob_cancels st s).
Proof.
  intros Hinv. destruct s; cbn [step].
  - destruct Hinv as [[Ht Hdocs]|(k & Hk & Ht & Hc & Hdocs)].
    + unfold fire. rewrite Ht. cbn [pop_earliest]. left. by rewrite Ht.
    + unfold fire. rewrite Ht.
      destruct (decide (k = n)) as [->|Hne].
      * rewrite pop_pending_last. cbn [action run_timer].
        unfold update_job. cbn [cancelled cur_job timers trace].
        rewrite Hc. left.
        destruct (onJob_cancels (mark_all_ready (cur_job st)));
          unfold doc_invariant, cancel; cbn [cancelled cur_job timers trace].
        -- split; [done|]. right. exists (mark_all_ready (cur_job st)).
           rewrite !docs_of_snoc, !jobs_of_snoc, Hdocs, !app_nil_r.
           by rewrite last_snoc.
        -- split; [done|]. right. exists (mark_all_ready (cur_job st)).
           rewrite !docs_of_snoc, !jobs_of_snoc, Hdocs, !app_nil_r.
           by rewrite last_snoc.
      * rewrite pop_pending_base by lia. cbn [action run_timer].
        unfold update_job. cbn [cancelled cur_job timers trace].
        rewrite Hc.
        destruct (onJob_cancels (mark_base_ready k (cur_job st)));
          unfold doc_invariant, cancel; cbn [cancelled cur_job timers trace].
        -- left. split; [done|]. left.
           by rewrite !docs_of_snoc, Hdocs, !app_nil_r.
        -- right. exists (S k). split_and!; [lia|done|done|].
           by rewrite docs_of_snoc, Hdocs, app_nil_r.
  - unfold cancel, doc_invariant. left. cbn [cancelled cur_job timers trace].
    split; [done|].
    rewrite docs_of_snoc, jobs_of_snoc, !app_nil_r.
    destruct Hinv as [[_ Hdocs]|(k & _ & _ & _ & Hdocs)]; [done|by left].
Qed.

Lemma doc_invariant_run n steps st :
  doc_invariant build_doc n st →
  doc_invariant build_doc n (run build_doc onJob_cancels steps st).
Proof.
  revert st. induction steps as [|s steps IH]; intros st Hinv; [done|].
  simpl. apply IH. by apply doc_invariant_step.
Qed.
End documents.

(** X14. Whatever the order of timers and cancellations, a request hands
    [onDoc] the reset [null] first and at most one document after it; that
    document is assembled from the last job handed to [onJob], and this job
    is ready. *)
Theorem X14_one_document_after_reset (build_doc : TranslationJob → InteractiveDoc)
    (onJob_cancels : TranslationJob → bool) (now : Z) (storyText : string)
    (steps : list Step) :
  let tr := trace (run build_doc onJob_cancels steps
                       (start_mock_translation now storyText)) in
  docs_of tr = [None]
  ∨ ∃ j, docs_of tr = [None; Some (build_doc j)]
         ∧ ready j = true ∧ last (jobs_of tr) = Some j.
Proof.
  cbv zeta.
  pose proof (doc_invariant_run build_doc onJob_cancels
                (length (initial_segments (split_into_segments storyText)))
                steps (start_mock_translation now storyText)) as Hrun.
  destruct Hrun as [[_ Hdocs]|(k & _ & _ & _ & Hdocs)]; [|done|by left].
  right. exists 0. unfold start_mock_translation. simpl.
  split_and!; [lia|apply mock_timers_pending|done|done].
Qed.

(** ** The progress counters *)

Lemma filter_imap_threshold {A B} (P : B → Prop) `{!∀ x, Decision (P x)}
    (f : nat → A → B) (k : nat) (l : list A) :
  (∀ i x, P (f i x) ↔ (i < k)%nat) →
  length (filter P (imap f l)) = (k `min` length l)%nat.
Proof.
  revert f k. induction l as [|x l IH]; intros f k Hf.
  - simpl. lia.
  - rewrite imap_cons, filter_cons. destruct (decide (P (f 0 x))) as [HP|HP].
    + apply Hf in HP. simpl. rewrite (IH _ (k - 1)%nat).
      * lia.
      * intros i y. simpl. rewrite Hf. lia.
    + assert (k = 0)%nat as -> by (rewrite Hf in HP; lia).
      rewrite (IH _ 0%nat); [done|]. intros i y. simpl. rewrite Hf. lia.
Qed.

Lemma filter_fmap_length {A B} (P : B → Prop) (Q : A → Prop)
    `{!∀ x, Decision (P x)} `{!∀ x, Decision (Q x)} (g : A → B) (l : list A) :
  (∀ x, P (g x) ↔ Q x) →
  length (filter P (g <$> l)) = length (filter Q l).
Proof.
  intros Hg. induction l as [|x l IH]; [done|].
  rewrite fmap_cons, !filter_cons.
  destruct (decide (P (g x))) as [HP|HP], (decide (Q x)) as [HQ|HQ]; simpl;
    try (by rewrite IH).
  - by apply Hg in HP.
  - by apply Hg in HQ.
Qed.

Lemma filter_all_length {A} (P : A → Prop) `{!∀ x, Decision (P x)} (l : list A) :
  (∀ x, P x) → length (filter P l) = length l.
Proof.
  intros HP. induction l as [|x l IH]; [done|].
  rewrite filter_cons. destruct (decide (P x)) as [|Hn]; [simpl; by rewrite IH|].
  destruct (Hn (HP x)).
Qed.

Lemma mark_base_ready_job_after k now seg_texts :
  mark_base_ready k (job_after k now seg_texts) = job_after (S k) now seg_texts.
Proof.
  unfold mark_base_ready, job_after. simpl. f_equal.
  apply list_eq. intros i. destruct (decide (k = i)) as [->|Hne].
  - rewrite list_lookup_alter_eq, !list_lookup_imap.
    destruct (seg_texts !! i) as [s|]; [|done]. simpl.
    rewrite bool_decide_eq_true_2 by lia. done.
  - rewrite list_lookup_alter_ne, !list_lookup_imap by done.
    destruct (seg_texts !! i) as [s|]; [|done]. simpl.
    destruct (decide (i < k)%nat).
    + by rewrite !bool_decide_eq_true_2 by lia.
    + by rewrite !bool_decide_eq_false_2 by lia.
Qed.

Lemma job_after_counters k now seg_texts :
  (k ≤ length seg_texts)%nat →
  total (Some (job_after k now seg_texts)) = length seg_texts
  ∧ baseReady (Some (job_after k now seg_texts)) = k
  ∧ spanReady (Some (job_after k now seg_texts)) = 0%nat.
Proof.
  intros Hk. unfold total, baseReady, spanReady, job_after. simpl.
  split_and!.
  - apply length_imap.
  - rewrite (filter_imap_threshold _ _ k).
    + lia.
    + intros i x. simpl. case_bool_decide; split; (done || lia).
  - rewrite (filter_imap_threshold _ _ 0%nat).
    + lia.
    + intros i x. simpl. split; [done|lia].
Qed.

Lemma run_fires build_doc now storyText k :
  (k ≤ length (split_into_segments storyText))%nat →
  let st := run build_doc never_cancels (replicate k Fire)
                (start_mock_translation now storyText) in
  timers st = pending_timers k (length (split_into_segments storyText))
  ∧ cancelled st = false
  ∧ cur_job st = job_after k now (split_into_segments storyText)
  ∧ last (jobs_of (trace st)) = Some (cur_job st).
Proof.
  cbv zeta. induction k as [|k IH]; intros Hk.
  - simpl. unfold initial_segments. rewrite length_imap, mock_timers_pending.
    split_and!; done.
  - rewrite replicate_S_end. unfold run in *. rewrite fold_left_app. simpl.
    destruct IH as (Ht & Hc & Hj & Hlast); [lia|].
    unfold fire. rewrite Ht, pop_pending_base by lia. simpl.
    unfold update_job. simpl. rewrite Hc. simpl.
    rewrite Hj, mark_base_ready_job_after, jobs_of_snoc, last_snoc.
    done.
Qed.

(** X15. The counters of the expanded view follow the mock driver: for a
    text of [n] segments and a caller that does not cancel, once [k ≤ n]
    timers have expired the last job handed to [onJob] has [n] segments,
    [k] of them with a ready base text and none with ready spans; once all
    [n + 1] timers have expired both counters are [n]. *)
Theorem X15_progress_counters (build_doc : TranslationJob → InteractiveDoc)
    (now : Z) (storyText : string) (k : nat) :
  let n := length (split_into_segments storyText) in
  let job_at m :=
    last (jobs_of (trace (run build_doc never_cancels (replicate m Fire)
                              (start_mock_translation now storyText)))) in
  (k ≤ n)%nat →
  (total (job_at k) = n ∧ baseReady (job_at k) = k
   ∧ spanReady (job_at k) = 0%nat)
  ∧ (total (job_at (S n)) = n ∧ baseReady (job_at (S n)) = n
     ∧ spanReady (job_at (S n)) = n).
Proof.
  cbv zeta. intros Hk. split.
  - destruct (run_fires build_doc now storyText k Hk) as (_ & _ & Hj & Hlast).
    rewrite Hlast, Hj. by apply job_after_counters.
  - destruct (run_fires build_doc now storyText
                (length (split_into_segments storyText)) ltac:(lia))
      as (Ht & Hc & Hj & _).
    rewrite replicate_S_end. unfold run in *. rewrite fold_left_app. simpl.
    unfold fire. rewrite Ht, pop_pending_last. simpl.
    unfold update_job. simpl. rewrite Hc. simpl.
    rewrite !jobs_of_snoc, app_nil_r, last_snoc, Hj.
    destruct (job_after_counters (length (split_into_segments storyText)) now
                (split_into_segments storyText) ltac:(lia)) as (Htot & Hb & _).
    unfold total, baseReady, spanReady in *. simpl in *.
    split_and!.
    + by rewrite length_fmap.
    + rewrite (filter_fmap_length _ (λ s, baseStage s = stage_ready)); [done|].
      done.
    + rewrite (filter_fmap_length _ (λ _, True)); [|done].
      by rewrite filter_all_length.
Qed.

Lemma X15_progress_counters_witness :
  let job_at m :=
    last (jobs_of (trace (run empty_doc never_cancels (replicate m Fire)
                              (start_mock_translation 0%Z "Hi. Yo. Ok.")))) in
  (total (job_at 1%nat) = 3%nat ∧ baseReady (job_at 1%nat) = 1%nat
   ∧ spanReady (job_at 1%nat) = 0%nat)
  ∧ (total (job_at 4%nat) = 3%nat ∧ baseReady (job_at 4%nat) = 3%nat
     ∧ spanReady (job_at 4%nat) = 3%nat).
Proof.
  apply (X15_progress_counters empty_doc 0%Z "Hi. Yo. Ok." 1).
  vm_compute. lia.
Defined.

(** ** Opening a stored translation *)

Lemma array_find_map_story storyId f stories st :
  (∀ x, story_id (f x) = story_id x) →
  array_find (λ x, bool_decide (story_id x = storyId)) stories = Some st →
  array_find (λ x, bool_decide (story_id x = storyId))
             (map_story storyId f stories)
  = Some (f st).
Proof.
  intros Hid Hfind.
  apply array_find_Some in Hfind as (pre & post & -> & Hst & Hpre).
  apply bool_decide_eq_true in Hst.
  unfold map_story. rewrite fmap_app, fmap_cons.
  rewrite (bool_decide_eq_false_2 (story_id st ≠ storyId)) by (intros H; done).
  apply array_find_here.
  - apply Forall_fmap. eapply Forall_impl; [exact Hpre|].
    intros x Hx. simpl in *. apply bool_decide_eq_false in Hx.
    by rewrite (bool_decide_eq_true_2 (story_id x ≠ storyId)),
      bool_decide_eq_false_2 by done.
  - apply bool_decide_eq_true_2. by rewrite Hid.
Qed.

Lemma handleOpenInLanguage_stored storyId language now s st :
  array_find (λ x, bool_decide (story_id x = storyId)) (app_stories s) = Some st →
  language ≠ "original" →
  is_Some (translations st !! language) →
  app_doc (handleOpenInLanguage storyId language now s).1
  = stored_doc language st.
Proof.
  intros Hfind Hlang [t Ht]. unfold handleOpenInLanguage, stored_doc.
  rewrite Hfind, bool_decide_eq_false_2, Ht by done. done.
Qed.

(** X16. What is displayed comes back when the translation is opened again.
    Let the story list hold a story with the identity [storyId] and let
    [language] not be [original].  (1) After a menu choice on a span of the
    displayed document, made while that story and language are active and
    the story has a translation for the language, opening the story in that
    language displays the document with the choice.  (2) After a document
    has arrived while one was displayed, opening the story in that language
    displays the merged document. *)
Theorem X16_reopening_restores_document (storyId language : string)
    (clock now : Z) (s : AppState) (st : Story) :
  array_find (λ x, bool_decide (story_id x = storyId)) (app_stories s) = Some st →
  language ≠ "original" →
  (∀ spanId variantIndex d span,
     storyId ≠ "" → language ≠ "" →
     is_Some (translations st !! language) →
     app_doc s = Some d → spans d !! spanId = Some span →
     let chosen := app_onSetActiveVariant (Some storyId) (Some language) clock
                     spanId variantIndex s in
     active_index_of (app_doc chosen) spanId = Some variantIndex
     ∧ ∀ s2, app_stories s2 = app_stories chosen →
             app_doc (handleOpenInLanguage storyId language now s2).1
             = app_doc chosen)
  ∧ (∀ created incoming prev,
       app_doc s = Some prev →
       let arrived := app_onDoc storyId language created clock incoming s in
       ∀ s2, app_stories s2 = app_stories arrived →
             app_doc (handleOpenInLanguage storyId language now s2).1
             = Some (merge_doc prev incoming)).
Proof.
  intros Hfind Hlang. split.
  - intros spanId variantIndex d span Hsid Hl [prevT HprevT] Hdoc Hspan. cbv zeta.
    unfold app_onSetActiveVariant, set_variant_doc. rewrite Hdoc, Hspan.
    cbn [app_doc app_stories truthy].
    rewrite !bool_decide_eq_false_2 by done. split.
    + unfold active_index_of. cbn [spans mbind option_bind].
      by rewrite lookup_insert_eq.
    + intros s2 Hs2.
      rewrite (handleOpenInLanguage_stored storyId language now s2
                 (set_variant_story clock language
                    (mkDoc (tokens d)
                       (<[spanId := with_activeVariantIndex span variantIndex]>
                          (spans d))) st)).
      * unfold set_variant_story, stored_doc. rewrite HprevT.
        cbn [translations put_translation]. by rewrite lookup_insert_eq.
      * rewrite Hs2. apply array_find_map_story; [|done].
        intros x. unfold set_variant_story. by destruct (translations x !! language).
      * done.
      * unfold set_variant_story. rewrite HprevT.
        cbn [translations put_translation]. by rewrite lookup_insert_eq.
  - intros created incoming prev Hdoc. cbv zeta. intros s2 Hs2.
    unfold app_onDoc in Hs2. rewrite Hdoc in Hs2. cbn [app_stories] in Hs2.
    rewrite (handleOpenInLanguage_stored storyId language now s2
               (put_translation clock language
                  (doc_translation created language (merge_doc prev incoming)
                     true st) st)).
    + unfold stored_doc. cbn [translations put_translation].
      by rewrite lookup_insert_eq.
    + rewrite Hs2.
      by apply (array_find_map_story storyId
                  (λ x, put_translation clock language
                          (doc_translation created language
                             (merge_doc prev incoming) true x) x)).
    + done.
    + cbn [translations put_translation]. by rewrite lookup_insert_eq.
Qed.

Lemma X16_reopening_restores_document_witness :
  let s := mkApp (Some doc_sx) None None [story_alpha; story_sx] in
  (∀ spanId variantIndex d span,
     "st" ≠ "" → "fr" ≠ "" →
     is_Some (translations story_sx !! "fr") →
     app_doc s = Some d → spans d !! spanId = Some span →
     let chosen := app_onSetActiveVariant (Some "st") (Some "fr") 7%Z
                     spanId variantIndex s in
     active_index_of (app_doc chosen) spanId = Some variantIndex
     ∧ ∀ s2, app_stories s2 = app_stories chosen →
             app_doc (handleOpenInLanguage "st" "fr" 9%Z s2).1
             = app_doc chosen)
  ∧ (∀ created incoming prev,
       app_doc s = Some prev →
       let arrived := app_onDoc "st" "fr" created 7%Z incoming s in
       ∀ s2, app_stories s2 = app_stories arrived →
             app_doc (handleOpenInLanguage "st" "fr" 9%Z s2).1
             = Some (merge_doc prev incoming)).
Proof.
  apply (X16_reopening_restores_document "st" "fr" 7%Z 9%Z
           (mkApp (Some doc_sx) None None [story_alpha; story_sx]) story_sx).
  - vm_compute. reflexivity.
  - discriminate.
Defined.

(** ** The translation practised *)

Lemma truthy_Some o s : truthy o = Some s ↔ o = Some s ∧ s ≠ "".
Proof.
  unfold truthy. destruct o as [x|].
  - case_bool_decide as Hx; split.
    + done.
    + intros [[= ->] Hne]. done.
    + intros [= ->]. done.
    + intros [[= ->] _]. done.
  - split; [done|]. by intros [? _].
Qed.

Lemma availableLanguages_elem s l :
  l ∈ availableLanguages (Some s)
  ↔ ∃ t, translations s !! l = Some t ∧ is_Some (doc t).
Proof.
  unfold availableLanguages. rewrite (array_sort_perm code_unit_compare).
  rewrite list_elem_of_fmap. split.
  - intros ([k t] & -> & Hin). apply list_elem_of_filter in Hin as [Hdoc Hin].
    apply elem_of_map_to_list in Hin. exists t. split; [done|].
    by apply bool_decide_eq_true in Hdoc.
  - intros (t & Hl & Hdoc). exists (l, t). split; [done|].
    apply list_elem_of_filter. split.
    + by apply bool_decide_eq_true_2.
    + by apply elem_of_map_to_list.
Qed.

(** X17. The translation practised always has a document and belongs to
    the selected story.  There is one whenever a story is selected, as long
    as the story has no document stored under the empty language. *)
Theorem X17_practised_translation_has_document (stories : list Story)
    (selectedStoryId selectedLanguage : option string) :
  (∀ t, activeTranslation (selectedStory stories selectedStoryId)
                          selectedLanguage = Some t →
        is_Some (doc t)
        ∧ ∃ s l, selectedStory stories selectedStoryId = Some s
                 ∧ translations s !! l = Some t)
  ∧ (∀ s, selectedStory stories selectedStoryId = Some s →
          (∀ t, translations s !! "" = Some t → doc t = None) →
          is_Some (activeTranslation (selectedStory stories selectedStoryId)
                                     selectedLanguage)).
Proof.
  split.
  - intros t Ht. destruct (selectedStory stories selectedStoryId) as [s|] eqn:Hs;
      [|done].
    unfold activeTranslation in Ht.
    destruct (truthy selectedLanguage) as [l|] eqn:Hl; cbn [mbind option_bind] in Ht.
    + destruct (translations s !! l) as [t'|] eqn:Ht'; cbn [mbind option_bind] in Ht.
      * destruct (has_doc t') eqn:Hdoc.
        -- injection Ht as <-. split; [by apply bool_decide_eq_true in Hdoc|].
           by exists s, l.
        -- destruct (truthy (head (availableLanguages (Some s)))) as [first|] eqn:Hf;
             [|done].
           cbn [mbind option_bind] in Ht. apply truthy_Some in Hf as [Hf _].
           apply head_Some_elem_of, availableLanguages_elem in Hf
             as (t2 & Ht2 & Hdoc2).
           assert (t = t2) as -> by congruence. split; [done|]. by exists s, first.
      * destruct (truthy (head (availableLanguages (Some s)))) as [first|] eqn:Hf;
          [|done].
        cbn [mbind option_bind] in Ht. apply truthy_Some in Hf as [Hf _].
        apply head_Some_elem_of, availableLanguages_elem in Hf
          as (t2 & Ht2 & Hdoc2).
        assert (t = t2) as -> by congruence. split; [done|]. by exists s, first.
    + destruct (truthy (head (availableLanguages (Some s)))) as [first|] eqn:Hf;
        [|done].
      cbn [mbind option_bind] in Ht. apply truthy_Some in Hf as [Hf _].
      apply head_Some_elem_of, availableLanguages_elem in Hf
        as (t2 & Ht2 & Hdoc2).
      assert (t = t2) as -> by congruence. split; [done|]. by exists s, first.
  - intros s Hs Hempty. rewrite Hs. unfold activeTranslation.
    destruct (l ← truthy selectedLanguage; t ← translations s !! l;
              if has_doc t then Some t else None) as [t|]; [done|].
    assert (∃ first, head (availableLanguages (Some s)) = Some first)
      as [first Hfirst].
    { unfold selectedStory in Hs. apply array_find_Some in Hs
        as (pre & post & Heq & _ & _).
      assert (s ∈ storiesWithDocs stories) as Hin
        by (rewrite Heq; set_solver).
      apply list_elem_of_filter in Hin as [Hex _].
      apply Exists_exists in Hex as ([l t] & Hin & Hdoc).
      assert (l ∈ availableLanguages (Some s)) as Hl.
      { apply availableLanguages_elem. exists t. split.
        - by apply elem_of_map_to_list in Hin.
        - by apply bool_decide_eq_true in Hdoc. }
      destruct (availableLanguages (Some s)) as [|x rest]; [by inversion Hl|].
      by exists x. }
    pose proof (head_Some_elem_of _ _ Hfirst) as Hin.
    apply availableLanguages_elem in Hin as (t & Ht & Hdoc).
    assert (truthy (Some first) = Some first) as Htr.
    { apply truthy_Some. split; [done|]. intros ->.
      rewrite (Hempty t Ht) in Hdoc. by destruct Hdoc. }
    rewrite Hfirst, Htr. cbn [mbind option_bind]. by rewrite Ht.
Qed.

(** ** The cursor of the practice view *)

Lemma press_range phrases cursor b :
  (0 ≤ cursor < Z.of_nat (length phrases))%Z →
  (0 ≤ press phrases cursor b < Z.of_nat (length phrases))%Z.
Proof.
  intros Hc. destruct b; simpl.
  - destruct (Z.leb_spec cursor 0); lia.
  - destruct (Z.leb_spec (Z.of_nat (length phrases) - 1) cursor); lia.
Qed.

Lemma presses_range phrases presses cursor :
  (0 ≤ cursor < Z.of_nat (length phrases))%Z →
  (0 ≤ fold_left (press phrases) presses cursor < Z.of_nat (length phrases))%Z.
Proof.
  revert cursor. induction presses as [|b presses IH]; intros cursor Hc; [done|].
  simpl. apply IH. by apply press_range.
Qed.

(** X18. With phrases to practise, the cursor reached from the first phrase
    by any presses of PREV and NEXT stays on a position of the list, and the
    phrase shown is the one at that position.  NEXT followed by PREV comes
    back, except from the last phrase, where NEXT does nothing.  Whatever
    the cursor, as long as it is not negative, a phrase of the list is
    shown. *)
Theorem X18_practice_cursor_in_range (phrases : list Phrase)
    (presses : list PracticeButton) (cursor : Z) :
  phrases ≠ [] →
  let reached := fold_left (press phrases) presses 0%Z in
  (0 ≤ reached < Z.of_nat (length phrases))%Z
  ∧ activePhrase phrases reached = phrases !! Z.to_nat reached
  ∧ is_Some (activePhrase phrases reached)
  ∧ press phrases (press phrases reached NEXT) PREV
    = (if bool_decide (reached = Z.of_nat (length phrases) - 1)%Z
       then press phrases reached PREV else reached)
  ∧ ((0 ≤ cursor)%Z →
     ∃ p, activePhrase phrases cursor = Some p ∧ p ∈ phrases).
Proof.
  intros Hne. cbv zeta.
  assert (0 < length phrases)%nat as Hlen by (destruct phrases; [done|simpl; lia]).
  pose proof (presses_range phrases presses 0%Z ltac:(lia)) as Hr.
  set (reached := fold_left (press phrases) presses 0%Z) in *.
  assert (activePhrase phrases reached = phrases !! Z.to_nat reached) as Hact.
  { unfold activePhrase. rewrite bool_decide_eq_true_2 by done.
    rewrite Z.rem_small by lia. unfold js_index.
    by rewrite (proj2 (Z.ltb_ge _ _)) by lia. }
  split; [exact Hr|]. split_and!.
  - done.
  - rewrite Hact. apply lookup_lt_is_Some. lia.
  - unfold press. case_bool_decide as Hlast.
    + rewrite (proj2 (Z.leb_le (Z.of_nat (length phrases) - 1) reached)) by lia.
      done.
    + rewrite (proj2 (Z.leb_gt (Z.of_nat (length phrases) - 1) reached)) by lia.
      rewrite Z.min_r by lia.
      rewrite (proj2 (Z.leb_gt (reached + 1) 0)) by lia. lia.
  - intros Hcur. unfold activePhrase. rewrite bool_decide_eq_true_2 by done.
    pose proof (Z.rem_bound_pos cursor (Z.of_nat (length phrases))
                  ltac:(lia) ltac:(lia)) as Hrem.
    unfold js_index. rewrite (proj2 (Z.ltb_ge _ _)) by lia.
    destruct (lookup_lt_is_Some_2 phrases
                (Z.to_nat (Z.rem cursor (Z.of_nat (length phrases))))
                ltac:(lia)) as [p Hp].
    exists p. split; [done|]. by eapply list_elem_of_lookup_2.
Qed.

Lemma X18_practice_cursor_in_range_witness :
  let phrases := [mkPhrase "un" "one" "fr"; mkPhrase "deux" "two" "fr"] in
  let reached := fold_left (press phrases) [NEXT; NEXT; PREV; NEXT] 0%Z in
  (0 ≤ reached < Z.of_nat (length phrases))%Z
  ∧ activePhrase phrases reached = phrases !! Z.to_nat reached
  ∧ is_Some (activePhrase phrases reached)
  ∧ press phrases (press phrases reached NEXT) PREV
    = (if bool_decide (reached = Z.of_nat (length phrases) - 1)%Z
       then press phrases reached PREV else reached)
  ∧ ((0 ≤ 5)%Z →
     ∃ p, activePhrase phrases 5%Z = Some p ∧ p ∈ phrases).
Proof.
  apply (X18_practice_cursor_in_range
           [mkPhrase "un" "one" "fr"; mkPhrase "deux" "two" "fr"]
           [NEXT; NEXT; PREV; NEXT] 5%Z).
  discriminate.
Defined.

(** ** The language a library row opens *)



(** ** The columns of the expanded view *)

(** X20. Under the content filter the expanded view has the five columns
    other than vulgar, in the order of the full list.  The text of a span in
    a column is the text of [register_variant], the ellipsis when there is
    none.  A vulgar variant is shown in such a column only for a span that
    has neither a variant of the register of the column nor a neutral one,
    and then it is the first variant of the span. *)
Theorem X20_filtered_columns (d : InteractiveDoc) (register : RegisterId) :
  register ∈ visibleRegisters true →
  visibleRegisters true = [formal; literary; neutral; casual; colloquial]
  ∧ register ≠ vulgar
  ∧ ∀ spanId span, spans d !! spanId = Some span →
      register_token_text d register (TokSpan spanId)
      = default ellipsis (v_text <$> register_variant register (variants span))
      ∧ ∀ v, register_variant register (variants span) = Some v →
             v_register v = vulgar →
             Forall (λ w, v_register w ≠ register ∧ v_register w ≠ neutral)
                    (variants span)
             ∧ head (variants span) = Some v.
Proof.
  intros Hin.
  assert (register ≠ vulgar) as Hr.
  { unfold visibleRegisters in Hin. by apply list_elem_of_filter in Hin as [? _]. }
  split_and!; [done|done|].
  intros spanId span Hspan. split.
  - cbn [register_token_text]. rewrite Hspan. unfold register_variant.
    case_bool_decide as Hlen; [|done].
    apply length_zero_iff_nil in Hlen. by rewrite Hlen.
  - intros v Hv Hvulgar. unfold register_variant in Hv.
    destruct (array_find (has_register register) (variants span)) as [w|] eqn:Hd.
    { injection Hv as ->.
      apply array_find_Some in Hd as (_ & _ & _ & Hw & _).
      apply bool_decide_eq_true in Hw. congruence. }
    destruct (array_find (has_register neutral) (variants span)) as [w|] eqn:Hn.
    { injection Hv as ->.
      apply array_find_Some in Hn as (_ & _ & _ & Hw & _).
      apply bool_decide_eq_true in Hw. congruence. }
    cbn [nullish] in Hv. split.
    + apply array_find_None in Hd, Hn.
      apply Forall_forall. intros w Hw. split.
      * pose proof (proj1 (Forall_forall _ _) Hd w Hw) as Hf.
        by apply bool_decide_eq_false in Hf.
      * pose proof (proj1 (Forall_forall _ _) Hn w Hw) as Hf.
        by apply bool_decide_eq_false in Hf.
    + unfold js_index in Hv. simpl in Hv. by destruct (variants span).
Qed.

Lemma X20_filtered_columns_witness :
  visibleRegisters true = [formal; literary; neutral; casual; colloquial]
  ∧ formal ≠ vulgar
  ∧ ∀ spanId span, spans doc_sx !! spanId = Some span →
      register_token_text doc_sx formal (TokSpan spanId)
      = default ellipsis (v_text <$> register_variant formal (variants span))
      ∧ ∀ v, register_variant formal (variants span) = Some v →
             v_register v = vulgar →
             Forall (λ w, v_register w ≠ formal ∧ v_register w ≠ neutral)
                    (variants span)
             ∧ head (variants span) = Some v.
Proof.
  apply (X20_filtered_columns doc_sx formal).
  vm_compute. apply list_elem_of_here.
Defined.

(** ** The categories offered *)


(** ** The languages offered *)

Lemma listed_codes_NoDup : NoDup (lang_code <$> ALL_LANGUAGES).
Proof. apply (bool_decide_unpack _). vm_compute. reflexivity. Qed.

(** X22. The picker offers every language that has a translation, the
    source language apart.  No code is offered in two of its four lists, and
    the source language is in none of the first three.  For a language of
    the two built-in lists, [languageLabel] answers the label shown in the
    list, and [hasTts] holds exactly for those of the first of the two. *)
Theorem X22_languages_offered (myLanguages : list Language)
    (sourceLanguage : option string) (translatedKeys : list string) :
  let mine := lang_code <$> myLanguagesFiltered myLanguages sourceLanguage in
  let tts := lang_code <$> ttsFiltered myLanguages sourceLanguage in
  let other := lang_code <$> otherFiltered myLanguages sourceLanguage in
  let extra := lang_code <$> extraTranslated myLanguages translatedKeys in
  (∀ c, c ∈ translatedKeys → isSourceLang sourceLanguage c = false →
        c ∈ mine ++ tts ++ other ++ extra)
  ∧ (∀ c, c ∈ mine → c ∉ tts ++ other ++ extra)
  ∧ (∀ c, c ∈ tts → c ∉ other ++ extra)
  ∧ (∀ c, c ∈ other → c ∉ extra)
  ∧ (∀ c, c ∈ mine ++ tts ++ other → isSourceLang sourceLanguage c = false)
  ∧ (∀ l, l ∈ ttsFiltered myLanguages sourceLanguage
              ++ otherFiltered myLanguages sourceLanguage →
          languageLabel (lang_code l) = lang_label l ∧
          hasTts (lang_code l)
          = bool_decide (l ∈ ttsFiltered myLanguages sourceLanguage)).
Proof.
  cbv zeta.
  assert (∀ c, c ∈ lang_code <$> myLanguagesFiltered myLanguages sourceLanguage
               ↔ c ∈ lang_code <$> myLanguages
                 ∧ isSourceLang sourceLanguage c = false) as Hmine.
  { intros c. unfold myLanguagesFiltered. rewrite !list_elem_of_fmap. split.
    - intros (l & -> & Hl). apply list_elem_of_filter in Hl as [Hs Hl].
      split; [by exists l|done].
    - intros [(l & -> & Hl) Hs]. exists l. split; [done|].
      by apply list_elem_of_filter. }
  assert (∀ c, c ∈ lang_code <$> ttsFiltered myLanguages sourceLanguage
               ↔ c ∈ lang_code <$> TTS_LANGUAGES
                 ∧ (c ∉ lang_code <$> myLanguages)
                 ∧ isSourceLang sourceLanguage c = false) as Htts.
  { intros c. unfold ttsFiltered. split.
    - intros Hc. apply list_elem_of_fmap in Hc as (l & -> & Hl).
      apply list_elem_of_filter in Hl as [[Hm Hs] Hl].
      split_and!; [apply list_elem_of_fmap; by exists l|done|done].
    - intros (Hc & Hm & Hs). apply list_elem_of_fmap in Hc as (l & -> & Hl).
      apply list_elem_of_fmap. exists l. split; [done|].
      by apply list_elem_of_filter. }
  assert (∀ c, c ∈ lang_code <$> otherFiltered myLanguages sourceLanguage
               ↔ c ∈ lang_code <$> OTHER_LANGUAGES
                 ∧ (c ∉ lang_code <$> myLanguages)
                 ∧ isSourceLang sourceLanguage c = false) as Hother.
  { intros c. unfold otherFiltered. split.
    - intros Hc. apply list_elem_of_fmap in Hc as (l & -> & Hl).
      apply list_elem_of_filter in Hl as [[Hm Hs] Hl].
      split_and!; [apply list_elem_of_fmap; by exists l|done|done].
    - intros (Hc & Hm & Hs). apply list_elem_of_fmap in Hc as (l & -> & Hl).
      apply list_elem_of_fmap. exists l. split; [done|].
      by apply list_elem_of_filter. }
  assert (∀ c, c ∈ lang_code <$> extraTranslated myLanguages translatedKeys
               ↔ c ∈ translatedKeys
                 ∧ (c ∉ lang_code <$> myLanguages)
                 ∧ (c ∉ lang_code <$> ALL_LANGUAGES)) as Hextra.
  { intros c. unfold extraTranslated. cbv zeta.
    rewrite <- list_fmap_compose, list_elem_of_fmap. split.
    - intros (k & -> & Hk). apply list_elem_of_filter in Hk as [Hn Hk].
      rewrite elem_of_remove_dups in Hk. rewrite elem_of_app in Hn.
      cbn [compose lang_code]. split_and!; [done|tauto|tauto].
    - intros (Hk & Hm & Ha). exists c. split; [done|].
      apply list_elem_of_filter. rewrite elem_of_remove_dups, elem_of_app.
      split; [tauto|done]. }
  assert (∀ c, c ∈ lang_code <$> ALL_LANGUAGES
               ↔ c ∈ lang_code <$> TTS_LANGUAGES
                 ∨ c ∈ lang_code <$> OTHER_LANGUAGES) as Hall.
  { intros c. unfold ALL_LANGUAGES. by rewrite fmap_app, elem_of_app. }
  assert (∀ c, c ∈ lang_code <$> TTS_LANGUAGES →
               c ∉ lang_code <$> OTHER_LANGUAGES) as Hdisjoint.
  { pose proof listed_codes_NoDup as Hnd. unfold ALL_LANGUAGES in Hnd.
    rewrite fmap_app in Hnd. by apply NoDup_app in Hnd as (_ & Hd & _). }
  split_and!.
  - intros c Hc Hs. rewrite !elem_of_app, Hmine, Htts, Hother, Hextra.
    destruct (decide (c ∈ lang_code <$> myLanguages)); [tauto|].
    destruct (decide (c ∈ lang_code <$> TTS_LANGUAGES)); [tauto|].
    destruct (decide (c ∈ lang_code <$> OTHER_LANGUAGES)); [tauto|].
    do 3 right. rewrite Hall. tauto.
  - intros c Hc. rewrite !elem_of_app, Htts, Hother, Hextra.
    apply Hmine in Hc. tauto.
  - intros c Hc. rewrite elem_of_app, Hother, Hextra, Hall.
    apply Htts in Hc. specialize (Hdisjoint c). tauto.
  - intros c Hc. rewrite Hextra, Hall. apply Hother in Hc. tauto.
  - intros c. rewrite !elem_of_app, Hmine, Htts, Hother. tauto.
  - intros l Hl.
    assert (l ∈ ALL_LANGUAGES) as Hlisted.
    { unfold ALL_LANGUAGES. rewrite elem_of_app in Hl |- *.
      destruct Hl as [Hl|Hl]; apply list_elem_of_filter in Hl; tauto. }
    assert (∀ l', l' ∈ ALL_LANGUAGES → lang_code l' = lang_code l → l' = l)
      as Hkey.
    { intros l' Hl' Hcode.
      apply list_elem_of_lookup in Hl' as [i Hi], Hlisted as [j Hj].
      assert (i = j) as ->; [|congruence].
      eapply (NoDup_lookup _ _ _ (lang_code l) listed_codes_NoDup);
        rewrite list_lookup_fmap; [rewrite Hi; simpl; by f_equal|by rewrite Hj]. }
    split.
    + unfold languageLabel.
      destruct (array_find (λ l0, bool_decide (lang_code l0 = lang_code l))
                           ALL_LANGUAGES) as [l'|] eqn:Hfind.
      * apply array_find_Some in Hfind as (pre & post & Heq & Hcode & _).
        apply bool_decide_eq_true in Hcode.
        rewrite (Hkey l'); [done| |done]. rewrite Heq.
        apply elem_of_app. right. apply list_elem_of_here.
      * apply array_find_None in Hfind.
        pose proof (proj1 (Forall_forall _ _) Hfind l Hlisted) as Hf.
        by apply bool_decide_eq_false in Hf.
    + unfold hasTts. apply bool_decide_ext. rewrite Exists_exists. split.
      * intros (l' & Hl' & Hcode).
        rewrite (Hkey l') in Hl'; [|unfold ALL_LANGUAGES; apply elem_of_app; by left|done].
        apply elem_of_app in Hl as [Hl|Hl]; [done|].
        exfalso. apply (Hdisjoint (lang_code l)).
        -- apply list_elem_of_fmap. by exists l.
        -- apply list_elem_of_fmap. exists l. split; [done|].
           by apply list_elem_of_filter in Hl as [_ ?].
      * intros Hl'. exists l. split; [|done].
        by apply list_elem_of_filter in Hl' as [_ ?].
Qed.
